(** * mypyc back end: runtime types, type equality, declaration ordering

    A shallow embedding of the parts of [mypyc/ops.py], [mypyc/sametype.py],
    [mypyc/emitfunc.py] and [mypyc/emitmodule.py] that fix the runtime type
    model, the structural type equality, the slot layout of native classes,
    the register environment, branch inversion, the error-value load and the
    module assembler's declaration ordering and entry-point naming. *)

From Stdlib Require Import Ascii String.
From stdpp Require Import gmap strings list relations pretty.

Set Warnings "-register-all".

Open Scope string_scope.
Open Scope list_scope.
Open Scope nat_scope.

(** ** Generic list traversals used by the Python sources *)

Section traversals.
Context {A B : Type}.

  (** [all(f(x, y) for x, y in zip(l1, l2))]: [zip] stops at the shorter
      list. *)
Definition all_zip (f : A → B → bool) : list A → list B → bool :=
    fix go l1 l2 :=
      match l1, l2 with
      | x :: l1', y :: l2' => f x y && go l1' l2'
      | _, _ => true
      end.

  (** The inner loop of [visit_runion]: scan [items] for the first element
      accepted by [p], delete it ([del items[j]]) and [break]; [None] is the
      loop's [else] branch (no element accepted). *)
Definition del_first (p : B → bool) : list B → option (list B) :=
    fix go items :=
      match items with
      | [] => None
      | r :: items' => if p r then Some items' else cons r <$> go items'
      end.

  (** The outer loop of [visit_runion] followed by [return not items]. *)
Definition match_items (f : A → B → bool) : list A → list B → bool :=
    fix go ls items :=
      match ls with
      | [] => match items with [] => true | _ :: _ => false end
      | l :: ls' =>
          match del_first (f l) items with
          | None => false
          | Some items' => go ls' items'
          end
      end.

(** The condition under which the greedy choice of the inner loop cannot
    spoil a pairing that exists: whenever [a] and [b] both accept [c], and
    [b] accepts [d], so does [a]. *)
Definition rectangle (f : A → B → bool) (ls : list A) (items : list B) : Prop :=
  ∀ a b c d, a ∈ ls → b ∈ ls → c ∈ items → d ∈ items →
    f a c = true → f b c = true → f b d = true → f a d = true.
End traversals.

(** Symmetry and transitivity of a boolean relation at one left argument. *)
Definition sym_at {A : Type} (f : A → A → bool) (x : A) : Prop :=
  ∀ y, f x y = f y x.

Definition trans_at {A : Type} (f : A → A → bool) (x : A) : Prop :=
  ∀ y z, f x y = true → f y z = true → f x z = true.

(** ** Exceptions

    The exceptions the modelled code raises, and the result of a call that
    may raise one. *)
Inductive Exception :=
| AssertionError
| AttributeError (attr : string)
| TypeError (message : string).

Inductive Result (A : Type) :=
| Ok (a : A)
| Raise (e : Exception).
Arguments Ok {A} a.
Arguments Raise {A} e.

Global Instance Result_ret : MRet Result := @Ok.

Global Instance Result_bind : MBind Result :=
  λ A B f m, match m with Ok a => f a | Raise e => Raise e end.

(** A failed [assert] raises [AssertionError]. *)
Definition assertion {A : Type} (value : option A) : Result A :=
  match value with
  | Some a => Ok a
  | None => Raise AssertionError
  end.

(** Calling a [str] object. *)
Definition str_call (callee : string) : Result string :=
  Raise (TypeError "'str' object is not callable").

(** ** ops.py: runtime types and IR containers *)

Module Ops.

(** The three storage types [RPrimitive.__init__] accepts; any other
    [ctype] string trips its [assert False, 'Uncognized ctype']. *)
Inductive PrimCType := CPyTagged | PyObjectPtr | CChar.

Definition PrimCType_str (c : PrimCType) : string :=
  match c with
  | CPyTagged => "CPyTagged"
  | PyObjectPtr => "PyObject *"
  | CChar => "char"
  end.

Definition parse_ctype (s : string) : option PrimCType :=
  if bool_decide (s = "CPyTagged") then Some CPyTagged
  else if bool_decide (s = "PyObject *") then Some PyObjectPtr
  else if bool_decide (s = "char") then Some CChar
  else None.

(** [RType] and the containers that refer to it.  [RUnion] and [RVoid] are
    the two further variants [sametype.py] imports and visits; [FuncIR]
    carries the fields the modelled functions read ([blocks] and [env] are
    left out). *)
Inductive RType : Type :=
| RPrimitive (name : string) (is_unboxed is_refcounted : bool) (ctype : PrimCType)
| RTuple (types : list RType)
| RInstance (class_ir : ClassIR)
| ROptional (value_type : RType)
| RUnion (items : list RType)
| RVoid
with ClassIR : Type :=
| mkClassIR (name : string) (attributes : list (string * RType)) (methods : list FuncIR)
with FuncIR : Type :=
| mkFuncIR (name : string) (class_name : option string)
    (args : list RuntimeArg) (ret_type : RType)
with RuntimeArg : Type :=
| mkRuntimeArg (name : string) (type : RType).

Definition arg_name (a : RuntimeArg) : string := let 'mkRuntimeArg n _ := a in n.
Definition arg_type (a : RuntimeArg) : RType := let 'mkRuntimeArg _ t := a in t.

Definition fn_name (f : FuncIR) : string := let 'mkFuncIR n _ _ _ := f in n.
Definition fn_class_name (f : FuncIR) : option string := let 'mkFuncIR _ c _ _ := f in c.

(** [FuncIR.cname], the attribute [__init__] computes:
    [name if not class_name else class_name + '___' + name]; an empty class
    name counts as none. *)
Definition fn_cname (f : FuncIR) : string :=
  match fn_class_name f with
  | None | Some EmptyString => fn_name f
  | Some class_name => class_name +:+ "___" +:+ fn_name f
  end.
Definition fn_args (f : FuncIR) : list RuntimeArg := let 'mkFuncIR _ _ a _ := f in a.
Definition fn_ret_type (f : FuncIR) : RType := let 'mkFuncIR _ _ _ r := f in r.

Definition class_name (c : ClassIR) : string := let 'mkClassIR n _ _ := c in n.
Definition class_attributes (c : ClassIR) : list (string * RType) :=
  let 'mkClassIR _ a _ := c in a.
Definition class_methods (c : ClassIR) : list FuncIR := let 'mkClassIR _ _ m := c in m.

(** [ClassIR.type_struct] and [ClassIR.struct_name]. *)
Definition type_struct (c : ClassIR) : string := class_name c +:+ "Type".
Definition class_struct_name (c : ClassIR) : string := class_name c +:+ "Object".

(** The class of an [RType] object, as [isinstance] sees it. *)
Inductive Variant :=
| VPrimitive | VTuple | VInstance | VOptional | VUnion | VVoid.

Definition variant (t : RType) : Variant :=
  match t with
  | RPrimitive _ _ _ _ => VPrimitive
  | RTuple _ => VTuple
  | RInstance _ => VInstance
  | ROptional _ => VOptional
  | RUnion _ => VUnion
  | RVoid => VVoid
  end.

(** [RPrimitive.__init__] with its assertion on [ctype]. *)
Definition RPrimitive_init (name : string) (is_unboxed is_refcounted : bool)
    (ctype : string) : option RType :=
  RPrimitive name is_unboxed is_refcounted <$> parse_ctype ctype.

Definition object_rprimitive := RPrimitive "builtins.object" false true PyObjectPtr.
Definition int_rprimitive := RPrimitive "builtins.int" true true CPyTagged.
Definition bool_rprimitive := RPrimitive "builtins.bool" true false CChar.
Definition none_rprimitive := RPrimitive "builtins.None" false true PyObjectPtr.
Definition list_rprimitive := RPrimitive "builtins.list" false true PyObjectPtr.
Definition dict_rprimitive := RPrimitive "builtins.dict" false true PyObjectPtr.
Definition str_rprimitive := RPrimitive "builtins.str" false true PyObjectPtr.
Definition tuple_rprimitive := RPrimitive "builtins.tuple" false true PyObjectPtr.

(** Structural induction over [RType] that reaches inside the element lists
    of [RTuple] and [RUnion]. *)
Section RType_nested_ind.
Variable P : RType → Prop.
Hypothesis Hprim : ∀ n u r c, P (RPrimitive n u r c).
Hypothesis Htuple : ∀ ts, Forall P ts → P (RTuple ts).
Hypothesis Hinst : ∀ c, P (RInstance c).
Hypothesis Hopt : ∀ v, P v → P (ROptional v).
Hypothesis Hunion : ∀ ts, Forall P ts → P (RUnion ts).
Hypothesis Hvoid : P RVoid.

Fixpoint RType_nested_ind (t : RType) : P t :=
    let all := fix all (l : list RType) : Forall P l :=
      match l with
      | [] => Forall_nil_2 P
      | x :: l' => Forall_cons_2 P x l' (RType_nested_ind x) (all l')
      end in
    match t with
    | RPrimitive n u r c => Hprim n u r c
    | RTuple ts => Htuple ts (all ts)
    | RInstance c => Hinst c
    | ROptional v => Hopt v (RType_nested_ind v)
    | RUnion ts => Hunion ts (all ts)
    | RVoid => Hvoid
    end.
End RType_nested_ind.

(** *** RInstance: slot lookup

    [None] stands for the [assert False, '... has no attribute ...'] that
    ends each lookup loop. *)

Definition getter_index (class_ir : ClassIR) (name : string) : option nat :=
  match list_find (λ p, p.1 = name) (class_attributes class_ir) with
  | Some (i, _) => Some (i * 2)
  | None => None
  end.

Definition setter_index (class_ir : ClassIR) (name : string) : option nat :=
  (λ i, i + 1) <$> getter_index class_ir name.

Definition method_index (class_ir : ClassIR) (name : string) : option nat :=
  let base := length (class_attributes class_ir) * 2 in
  match list_find (λ fn, fn_name fn = name) (class_methods class_ir) with
  | Some (i, _) => Some (base + i)
  | None => None
  end.

Definition attr_type (class_ir : ClassIR) (name : string) : option RType :=
  match list_find (λ p, p.1 = name) (class_attributes class_ir) with
  | Some (_, (_, rtype)) => Some rtype
  | None => None
  end.

(** The class of the slot-index scenario: attributes [a: int, b: str] and
    methods [f, g]. *)
Definition scenario_class : ClassIR :=
  mkClassIR "C" [("a", int_rprimitive); ("b", str_rprimitive)]
    [mkFuncIR "f" (Some "C") [] int_rprimitive;
     mkFuncIR "g" (Some "C") [] int_rprimitive].

(** *** Sentinel values

    [c_undefined_value] returns a C expression; [None] is the
    [assert False] of [RTuple.c_undefined_value].  The classes of [RUnion]
    and [RVoid] are not part of [ops.py], so their sentinels are parameters
    of the development. *)
Section sentinels.
Variables union_undefined void_undefined : option string.

Definition c_undefined (c : PrimCType) : string :=
    match c with
    | CPyTagged => "CPY_INT_TAG"
    | PyObjectPtr => "NULL"
    | CChar => "2"
    end.

Definition c_undefined_value (t : RType) : option string :=
    match t with
    | RPrimitive _ _ _ c => Some (c_undefined c)
    | RTuple _ => None
    | RInstance _ => Some "NULL"
    | ROptional _ => Some "NULL"
    | RUnion _ => union_undefined
    | RVoid => void_undefined
    end.

Definition c_error_value (t : RType) : option string := c_undefined_value t.
End sentinels.

(** *** RTuple: generated struct name

    [unique_id] truncates the decimal rendering of [abs(hash(self))]; the
    interpreter's hash of [(self.name, self.types)] is a parameter. *)
Section tuple_names.
Variable rtuple_hash : list RType → Z.

Definition unique_id (types : list RType) : string :=
    String.substring 0 15 (pretty (Z.abs (rtuple_hash types))).

Definition struct_name (types : list RType) : string :=
    "tuple_def_" +:+ unique_id types.

Definition rtuple_ctype (types : list RType) : string :=
    "struct " +:+ struct_name types.
End tuple_names.

(** *** Registers and the Environment

    A [Register] is a [CRegister] (an integer) or an [Op] object standing
    for its own result; [Op] objects hash by identity, which [op_id]
    stands for.  A mypy [Var] likewise hashes by identity. *)
Inductive Register := CRegister (n : Z) | OpRegister (op_id : nat).

Definition INVALID_REGISTER : Register := CRegister (-99999).

Definition Label := Z.

Definition INVALID_LABEL : Label := (-88888)%Z.

Global Instance Register_eq_dec : EqDecision Register.
Proof. solve_decision. Defined.

Global Instance Register_countable : Countable Register.
Proof.
  refine (inj_countable'
    (λ r, match r with CRegister n => inl n | OpRegister i => inr i end)
    (λ s, match s with inl n => CRegister n | inr i => OpRegister i end) _).
  by intros [].
Defined.

Record Var := mkVar { var_id : nat; var_name : string }.

Global Instance Var_eq_dec : EqDecision Var.
Proof. solve_decision. Defined.

Global Instance Var_countable : Countable Var.
Proof.
  refine (inj_countable' (λ v, (var_id v, var_name v))
    (λ p, mkVar p.1 p.2) _).
  by intros [].
Defined.

(** What a caller can pass where a [Var] is expected: [add_local] checks
    with [isinstance]. *)
Inductive PyObject := VarObject (v : Var) | OtherObject.

(** The four dictionaries and the temporary counter.  Insertion order of
    the dictionaries (read by [regs] and [to_lines]) is not modelled. *)
Record Environment := mkEnvironment {
  indexes : gmap Register Z;
  names : gmap Register string;
  types : gmap Register RType;
  symtable : gmap Var Register;
  temp_index : Z;
}.

Definition Environment_init : Environment :=
  {| indexes := ∅; names := ∅; types := ∅; symtable := ∅; temp_index := 0 |}.

Definition add (self : Environment) (reg : Register) (name : string)
    (typ : RType) : Environment :=
  {| indexes := <[reg := Z.of_nat (size (names self))]> (indexes self);
     names := <[reg := name]> (names self);
     types := <[reg := typ]> (types self);
     symtable := symtable self;
     temp_index := temp_index self |}.

(** [None] is the failure of [assert isinstance(var, Var)]. *)
Definition add_local (self : Environment) (var : PyObject) (typ : RType)
    : option (Register * Environment) :=
  match var with
  | OtherObject => None
  | VarObject v =>
      let reg := CRegister (Z.of_nat (size (names self))) in
      let self1 :=
        {| indexes := indexes self; names := names self; types := types self;
           symtable := <[v := reg]> (symtable self);
           temp_index := temp_index self |} in
      Some (reg, add self1 reg (var_name v) typ)
  end.

(** [None] is the [KeyError] of [self.symtable[var]]. *)
Definition lookup (self : Environment) (var : Var) : option Register :=
  symtable self !! var.

Definition add_temp (self : Environment) (typ : RType)
    : Register * Environment :=
  let reg := CRegister (Z.of_nat (size (names self))) in
  let self1 := add self reg ("r" +:+ pretty (temp_index self)) typ in
  (reg, {| indexes := indexes self1; names := names self1;
           types := types self1; symtable := symtable self1;
           temp_index := (temp_index self1 + 1)%Z |}).

(** [reg] is a [RegisterOp]; [reg_type] is its [type] property. *)
Definition add_op (self : Environment) (op_id : nat)
    (reg_type : option RType) : Environment :=
  match reg_type with
  | None => self
  | Some typ =>
      let self1 :=
        add self (OpRegister op_id) ("r" +:+ pretty (temp_index self)) typ in
      {| indexes := indexes self1; names := names self1;
         types := types self1; symtable := symtable self1;
         temp_index := (temp_index self1 + 1)%Z |}
  end.

(** The numbering invariant of an environment: every integer register it
    names is below the number of named registers. *)
Definition env_wf (self : Environment) : Prop :=
  ∀ n, is_Some (names self !! CRegister n) →
       (0 ≤ n < Z.of_nat (size (names self)))%Z.

(** *** Branch *)

Record Branch := mkBranch {
  br_line : Z;
  br_left : Register;
  br_right : Register;
  br_true : Label;
  br_false : Label;
  br_op : Z;
  br_negated : bool;
  br_traceback_entry : option (string * Z);
}.

Definition Branch_init (left right : Register) (true_label false_label : Label)
    (op : Z) (line : Z) : Branch :=
  {| br_line := line; br_left := left; br_right := right;
     br_true := true_label; br_false := false_label; br_op := op;
     br_negated := false; br_traceback_entry := None |}.

Definition invert (self : Branch) : Branch :=
  {| br_line := br_line self; br_left := br_left self;
     br_right := br_right self;
     br_true := br_false self; br_false := br_true self;
     br_op := br_op self;
     br_negated := negb (br_negated self);
     br_traceback_entry := br_traceback_entry self |}.

(** *** Attribute access

    What an attribute of the objects below can hold, and hence what
    [obj.attr] evaluates to; reading an attribute the object does not have
    raises [AttributeError]. *)
Inductive Attr :=
| AttrRType (rtype : RType)
| AttrRegister (reg : Register)
| AttrInt (n : Z)
| AttrBool (b : bool)
| AttrMethod (name : string)
| AttrStrList (l : list string)
| AttrStrDict (items : list (string * string))
| AttrFuncs (l : list FuncIR)
| AttrClasses (l : list ClassIR).

(** *** LoadErrorValue

    The op is its own destination register ([super().__init__(self, line)]);
    the constructor stores its type argument as [_type], which the [type]
    property of [StrictRegisterOp] returns. *)
Record LoadErrorValue := mkLoadErrorValue {
  lev_id : nat;
  lev_type : RType;
  lev_line : Z;
}.

Definition lev_dest (op : LoadErrorValue) : Register := OpRegister (lev_id op).

Definition ERR_NEVER : Z := 0.

(** [op.<name>] for a [LoadErrorValue]: the instance attributes [line],
    [_dest] and [_type], the properties [dest] and [type], the class
    attributes [error_kind] and [no_reg], and the methods of the class and
    its bases.  The attributes every Python object has ([__class__] and
    the like) are left out. *)
Definition LoadErrorValue_getattr (op : LoadErrorValue) (name : string)
    : Result Attr :=
  if bool_decide (name = "line") then Ok (AttrInt (lev_line op))
  else if bool_decide (name ∈ ["_dest"; "dest"]) then
    Ok (AttrRegister (lev_dest op))
  else if bool_decide (name ∈ ["_type"; "type"]) then
    Ok (AttrRType (lev_type op))
  else if bool_decide (name = "error_kind") then Ok (AttrInt ERR_NEVER)
  else if bool_decide (name = "no_reg") then Ok (AttrBool true)
  else if bool_decide
            (name ∈ ["sources"; "to_str"; "accept"; "can_raise";
                     "unique_sources"]) then
    Ok (AttrMethod name)
  else Raise (AttributeError name).

(** *** ModuleIR

    [unicode_literals] lists the items of the dictionary the constructor
    stores, in iteration order. *)
Record ModuleIR := mkModuleIR {
  imports : list string;
  unicode_literals : list (string * string);
  functions : list FuncIR;
  classes : list ClassIR;
}.

(** [self.imports = imports[:]], then [insert(0, 'builtins')] when the
    copy does not contain it. *)
Definition ModuleIR_init (imports : list string)
    (unicode_literals : list (string * string)) (functions : list FuncIR)
    (classes : list ClassIR) : ModuleIR :=
  {| imports :=
       if bool_decide ("builtins" ∈ imports) then imports
       else "builtins" :: imports;
     unicode_literals := unicode_literals;
     functions := functions;
     classes := classes |}.

(** [module.<name>] for a [ModuleIR]: the four attributes [__init__]
    sets (the class defines no other). *)
Definition ModuleIR_getattr (module : ModuleIR) (name : string)
    : Result Attr :=
  if bool_decide (name = "imports") then Ok (AttrStrList (imports module))
  else if bool_decide (name = "unicode_literals") then
    Ok (AttrStrDict (unicode_literals module))
  else if bool_decide (name = "functions") then
    Ok (AttrFuncs (functions module))
  else if bool_decide (name = "classes") then
    Ok (AttrClasses (classes module))
  else Raise (AttributeError name).

(** [value.items()]: only a dictionary has the method. *)
Definition Attr_items (value : Attr) : Result (list (string * string)) :=
  match value with
  | AttrStrDict items => Ok items
  | _ => Raise (AttributeError "items")
  end.

(** *** Storage types and the declaration of a tuple struct

    The storage types of [RUnion] and [RVoid], whose classes are not part
    of [ops.py], are parameters. *)
Section ctypes.
Variable rtuple_hash : list RType → Z.
Variables union_ctype void_ctype : string.

Definition ctype (t : RType) : string :=
  match t with
  | RPrimitive _ _ _ c => PrimCType_str c
  | RTuple types => rtuple_ctype rtuple_hash types
  | RInstance _ => "PyObject *"
  | ROptional _ => "PyObject *"
  | RUnion _ => union_ctype
  | RVoid => void_ctype
  end.

Fixpoint last_char (s : string) : option ascii :=
  match s with
  | EmptyString => None
  | String c EmptyString => Some c
  | String _ s' => last_char s'
  end.

(** [None] is the [IndexError] of [self.ctype[-1]] on an empty string. *)
Definition ctype_spaced (t : RType) : option string :=
  c ← last_char (ctype t);
  Some (if Ascii.eqb c "*" then ctype t else ctype t +:+ " ").

(** The loop of [get_c_declaration], with its counter [i]. *)
Fixpoint field_lines (i : nat) (types : list RType) : option (list string) :=
  match types with
  | [] => Some []
  | typ :: rest =>
      spaced ← ctype_spaced typ;
      lines ← field_lines (S i) rest;
      Some (("    " +:+ spaced +:+ "f" +:+ pretty i +:+ ";") :: lines)
  end.

Definition get_c_declaration (types : list RType) : option (list string) :=
  fields ← field_lines 0 types;
  Some (["struct " +:+ struct_name rtuple_hash types +:+ " {"]
        ++ fields ++ ["};"; ""]).
End ctypes.

(** *** Further operations of ops.py *)

(** [ClassIR.get_method]: the first method of that name, if any. *)
Definition get_method (class_ir : ClassIR) (name : string) : option FuncIR :=
  head (filter (λ func, fn_name func = name) (class_methods class_ir)).

(** [RegisterOp.unique_sources], on the list [self.sources()] returns. *)
Definition unique_sources (sources : list Register) : list Register :=
  foldl (λ result reg,
           if bool_decide (reg ∉ result) then result ++ [reg] else result)
    [] sources.

(** The bookkeeping invariant of an environment: the three dictionaries
    name the same registers, the indexes number them [0 .. N-1] without
    gap or repetition, an integer register is its own index, and a bound
    variable's register is an integer register that carries the
    variable's name. *)
Record env_ok (self : Environment) : Prop := {
  ok_indexes_dom : ∀ r, is_Some (indexes self !! r) ↔ is_Some (names self !! r);
  ok_types_dom : ∀ r, is_Some (types self !! r) ↔ is_Some (names self !! r);
  ok_index_range : ∀ r i,
    indexes self !! r = Some i → (0 ≤ i < Z.of_nat (size (names self)))%Z;
  ok_index_inj : ∀ r r' i,
    indexes self !! r = Some i → indexes self !! r' = Some i → r = r';
  ok_index_onto : ∀ i,
    (0 ≤ i < Z.of_nat (size (names self)))%Z → ∃ r, indexes self !! r = Some i;
  ok_cregister : ∀ n,
    is_Some (names self !! CRegister n) → indexes self !! CRegister n = Some n;
  ok_symtable : ∀ v r,
    symtable self !! v = Some r →
    (∃ n, r = CRegister n)
    ∧ names self !! r = Some (var_name v) ∧ is_Some (types self !! r);
}.

(** The environments the operations build: from the empty one by
    [add_local], [add_temp] and [add_op], each op being added once. *)
Inductive env_built : Environment → Prop :=
| built_init : env_built Environment_init
| built_local self v typ reg self' :
    env_built self → add_local self (VarObject v) typ = Some (reg, self') →
    env_built self'
| built_temp self typ :
    env_built self → env_built (add_temp self typ).2
| built_op self op_id reg_type :
    env_built self → names self !! OpRegister op_id = None →
    env_built (add_op self op_id reg_type).

Fixpoint replace_dot (s : string) : string :=
  match s with
  | EmptyString => EmptyString
  | String c s' =>
      if Ascii.eqb c "."%char then "__dot__" +:+ replace_dot s'
      else String c (replace_dot s')
  end.

Definition c_module_name (module_name : string) : string :=
  "module_" +:+ replace_dot module_name.

End Ops.

(** ** sametype.py: structural type equality *)

Module SameType.
Import Ops.

(** [is_same_type(a, b)] is [a.accept(SameTypeVisitor(b))]: the match on
    [a] is the visitor dispatch, the match on [b] the [isinstance] test of
    each [visit_*] method. *)
Fixpoint is_same_type (a b : RType) {struct a} : bool :=
  match a with
  | RInstance lc =>
      match b with
      | RInstance rc => bool_decide (class_name lc = class_name rc)
      | _ => false
      end
  | ROptional lv =>
      match b with
      | ROptional rv => is_same_type lv rv
      | _ => false
      end
  | RUnion litems =>
      match b with
      | RUnion ritems => match_items is_same_type litems ritems
      | _ => false
      end
  | RPrimitive ln _ _ _ =>
      match b with
      | RPrimitive rn _ _ _ => bool_decide (ln = rn)
      | _ => false
      end
  | RTuple ltypes =>
      match b with
      | RTuple rtypes =>
          bool_decide (length rtypes = length ltypes)
          && all_zip is_same_type ltypes rtypes
      | _ => false
      end
  | RVoid =>
      match b with
      | RVoid => true
      | _ => false
      end
  end.

(** [FuncSignature] as [sametype.py] reads it: the ordered arguments and the
    return type. *)
Record FuncSignature := mkFuncSignature {
  sig_args : list RuntimeArg;
  sig_ret_type : RType;
}.

Definition same_arg (t1 t2 : RuntimeArg) : bool :=
  is_same_type (arg_type t1) (arg_type t2)
  && bool_decide (arg_name t1 = arg_name t2).

Definition is_same_signature (a b : FuncSignature) : bool :=
  bool_decide (length (sig_args a) = length (sig_args b))
  && is_same_type (sig_ret_type a) (sig_ret_type b)
  && all_zip same_arg (sig_args a) (sig_args b).

(** [a.args[1:]] is [drop 1]. *)
Definition is_same_method_signature (a b : FuncSignature) : bool :=
  bool_decide (length (sig_args a) = length (sig_args b))
  && is_same_type (sig_ret_type a) (sig_ret_type b)
  && all_zip same_arg (drop 1 (sig_args a)) (drop 1 (sig_args b)).

End SameType.

(** ** emitfunc.py: the error-value load *)

Module EmitFunc.
Import Ops.

(** [EmitterInterface] of [ops.py]: what the function visitor asks of the
    emitter it wraps.  The emitter is threaded explicitly. *)
Class EmitterInterface (E : Type) := {
  reg : E → Register → string;
  temp_name : E → string * E;
  emit_line : E → string → E;
  emit_lines : E → list string → E;
  emit_declaration : E → string → E;
}.

(** A line-recording emitter: it keeps the emitted lines and a counter for
    temporaries, and names registers by their number. *)
Record Recorder := mkRecorder {
  rec_lines : list string;
  rec_declarations : list string;
  rec_temps : nat;
}.

Definition Recorder_reg (r : Register) : string :=
  match r with
  | CRegister n => "cpy_r_" +:+ pretty n
  | OpRegister i => "cpy_r_op" +:+ pretty i
  end.

Global Instance Recorder_emitter : EmitterInterface Recorder := {|
  reg _ r := Recorder_reg r;
  temp_name e :=
    ("__tmp" +:+ pretty (rec_temps e),
     mkRecorder (rec_lines e) (rec_declarations e) (S (rec_temps e)));
  emit_line e line :=
    mkRecorder (rec_lines e ++ [line]) (rec_declarations e) (rec_temps e);
  emit_lines e lines :=
    mkRecorder (rec_lines e ++ lines) (rec_declarations e) (rec_temps e);
  emit_declaration e line :=
    mkRecorder (rec_lines e) (rec_declarations e ++ [line]) (rec_temps e);
|}.

Section visitor.
Context `{EmitterInterface E}.
Variables union_undefined void_undefined : option string.
Variable rtuple_hash : list RType → Z.

Abbreviation c_undefined_value := (c_undefined_value union_undefined void_undefined).
Abbreviation c_error_value := (c_error_value union_undefined void_undefined).

(** [op.rtype] is read first; the [assert False] of
    [RTuple.c_undefined_value] raises [AssertionError].  Nothing is emitted
    before a raise. *)
Definition visit_load_error_value (self : E) (op : LoadErrorValue)
    : Result E :=
  rtype ← LoadErrorValue_getattr op "rtype";
  match rtype with
  | AttrRType (RTuple types) =>
      values ← mapM (λ item, assertion (c_undefined_value item)) types;
      let '(tmp, self1) := temp_name self in
      let self2 :=
        emit_line self1
          (rtuple_ctype rtuple_hash types +:+ " " +:+ tmp +:+ " = { "
           +:+ String.concat ", " values +:+ " };") in
      Ok (emit_line self2 (reg self2 (lev_dest op) +:+ " = " +:+ tmp +:+ ";"))
  | AttrRType rtype =>
      value ← assertion (c_error_value rtype);
      Ok (emit_line self (reg self (lev_dest op) +:+ " = " +:+ value +:+ ";"))
  | _ => Raise (AttributeError "c_error_value")
  end.
End visitor.

(** *** visit_branch

    The operator codes of [Branch] and the visitor's [BRANCH_OP_MAP]. *)
Definition INT_EQ : Z := 10.
Definition INT_NE : Z := 11.
Definition INT_LT : Z := 12.
Definition INT_LE : Z := 13.
Definition INT_GT : Z := 14.
Definition INT_GE : Z := 15.
Definition BOOL_EXPR : Z := 100.
Definition IS_NONE : Z := 101.
Definition IS_ERROR : Z := 102.

(** [None] is the [KeyError] of the dictionary lookup. *)
Definition BRANCH_OP_MAP (op : Z) : option string :=
  if bool_decide (op = INT_EQ) then Some "CPyTagged_IsEq"
  else if bool_decide (op = INT_NE) then Some "CPyTagged_IsNe"
  else if bool_decide (op = INT_LT) then Some "CPyTagged_IsLt"
  else if bool_decide (op = INT_LE) then Some "CPyTagged_IsLe"
  else if bool_decide (op = INT_GT) then Some "CPyTagged_IsGt"
  else if bool_decide (op = INT_GE) then Some "CPyTagged_IsGe"
  else None.

Definition dquote : string := String "034"%char EmptyString.

Section branch_visitor.
Context `{EmitterInterface E}.
Variables union_undefined void_undefined : option string.
(** [Emitter.label] of [mypyc/emit.py]. *)
Variable label : Label → string.
(** The visitor's [env], [func_name] and [source_path]. *)
Variable env : Environment.
Variables func_name source_path : string.

(** The condition [visit_branch] builds; [None] is a [KeyError] of
    [self.env.types] or of [BRANCH_OP_MAP], the [IndexError] of
    [typ.types[0]], or the assertion of a tuple's [c_error_value]. *)
Definition branch_cond (self : E) (op : Branch) : option string :=
  let neg := if br_negated op then "!" else "" in
  if bool_decide (br_op op = BOOL_EXPR) then
    Some (neg +:+ "(" +:+ reg self (br_left op) +:+ ")")
  else if bool_decide (br_op op = IS_NONE) then
    let compare := if br_negated op then "!=" else "==" in
    Some (reg self (br_left op) +:+ " " +:+ compare +:+ " Py_None")
  else if bool_decide (br_op op = IS_ERROR) then
    typ ← types env !! br_left op;
    let compare := if br_negated op then "!=" else "==" in
    match typ with
    | RTuple types =>
        item_type ← types !! 0;
        value ← c_error_value union_undefined void_undefined item_type;
        Some (reg self (br_left op) +:+ ".f0 " +:+ compare +:+ " " +:+ value)
    | _ =>
        value ← c_error_value union_undefined void_undefined typ;
        Some (reg self (br_left op) +:+ " " +:+ compare +:+ " " +:+ value)
    end
  else
    let left := reg self (br_left op) in
    let right := reg self (br_right op) in
    fn ← BRANCH_OP_MAP (br_op op);
    Some (neg +:+ fn +:+ "(" +:+ left +:+ ", " +:+ right +:+ ")").

Definition visit_branch (self : E) (op : Branch) : option E :=
  cond ← branch_cond self op;
  let cond :=
    match br_traceback_entry op with
    | Some _ => "unlikely(" +:+ cond +:+ ")"
    | None => cond
    end in
  let self1 := emit_line self ("if (" +:+ cond +:+ ") {") in
  let self2 :=
    match br_traceback_entry op with
    | Some _ =>
        emit_line self1
          ("CPy_AddTraceback(" +:+ dquote +:+ source_path +:+ dquote +:+ ", "
           +:+ dquote +:+ func_name +:+ dquote +:+ ", "
           +:+ pretty (br_line op) +:+ ", _globals);")
    | None => self1
    end in
  Some (emit_lines self2
          [ "goto " +:+ label (br_true op) +:+ ";";
            "} else";
            "    goto " +:+ label (br_false op) +:+ ";" ]).
End branch_visitor.

End EmitFunc.

(** ** emitmodule.py: the module assembler *)

Module EmitModule.
Import Ops.

(** [HeaderDeclaration] of [mypyc/emit.py] as the assembler uses it: the
    names it depends on (a set, listed in the order iteration yields them)
    and the lines of its body. *)
Record HeaderDeclaration := mkHeaderDeclaration {
  dependencies : list string;
  body : list string;
}.

Record MarkedDeclaration := mkMarkedDeclaration {
  declaration : HeaderDeclaration;
  mark : bool;
}.

(** The constructor ignores its [mark] argument. *)
Definition MarkedDeclaration_init (declaration : HeaderDeclaration)
    (mark : bool) : MarkedDeclaration :=
  {| declaration := declaration; mark := false |}.

(** How a run of the sort can end: normally, with the [KeyError] of
    [marked_declarations[name]], or with the recursion budget used up. *)
Inductive Outcome (S : Type) :=
| Done (s : S)
| KeyError (key : string)
| RecursionError.
Arguments Done {S} s.
Arguments KeyError {S} key.
Arguments RecursionError {S}.

(** A [for] loop whose body may raise. *)
Definition for_each {A S : Type} (f : A → S → Outcome S)
    : list A → S → Outcome S :=
  fix go l s :=
    match l with
    | [] => Done s
    | x :: l' =>
        match f x s with
        | Done s' => go l' s'
        | KeyError k => KeyError k
        | RecursionError => RecursionError
        end
    end.

(** The two locals the closure [_toposort_visit] mutates. *)
Record SortState := mkSortState {
  marked_declarations : gmap string MarkedDeclaration;
  result : list HeaderDeclaration;
}.

(** [depth] bounds the nesting of recursive calls. *)
Fixpoint _toposort_visit (depth : nat) (name : string) (st : SortState)
    : Outcome SortState :=
  match depth with
  | 0 => RecursionError
  | S depth' =>
      match marked_declarations st !! name with
      | None => KeyError name
      | Some decl =>
          if mark decl then Done st
          else
            match for_each (_toposort_visit depth')
                    (dependencies (declaration decl)) st with
            | Done st' =>
                Done {| marked_declarations :=
                          <[name := {| declaration := declaration decl;
                                       mark := true |}]>
                            (marked_declarations st');
                        result := result st' ++ [declaration decl] |}
            | KeyError k => KeyError k
            | RecursionError => RecursionError
            end
      end
  end.

(** [declarations] lists the items of the context's ordered dictionary. *)
Definition mark_all (declarations : list (string * HeaderDeclaration))
    : gmap string MarkedDeclaration :=
  foldl (λ m kv, <[kv.1 := MarkedDeclaration_init kv.2 false]> m) ∅
    declarations.

Definition toposort_declarations (depth : nat)
    (declarations : list (string * HeaderDeclaration))
    : Outcome (list HeaderDeclaration) :=
  let st := {| marked_declarations := mark_all declarations; result := [] |} in
  match for_each (_toposort_visit depth) declarations.*1 st with
  | Done st' => Done (result st')
  | KeyError k => KeyError k
  | RecursionError => RecursionError
  end.

(** The dependency graph held in the context: [x] names [y] as a
    dependency. *)
Definition depends_on (declarations : list (string * HeaderDeclaration))
    (x y : string) : Prop :=
  ∃ d, (x, d) ∈ declarations ∧ y ∈ dependencies d.

(** Every dependency is itself a declaration of the context. *)
Definition deps_closed (declarations : list (string * HeaderDeclaration))
    : Prop :=
  ∀ x y, depends_on declarations x y → y ∈ declarations.*1.

(** No declaration depends on itself through a chain of dependencies. *)
Definition acyclic (declarations : list (string * HeaderDeclaration)) : Prop :=
  ∀ x, ¬ tc (depends_on declarations) x x.

(** The diamond of the ordering scenario: X depends on Y and Z, and both
    depend on W. *)
Definition diamond : list (string * HeaderDeclaration) :=
  [ ("X", mkHeaderDeclaration ["Y"; "Z"] ["struct X;"]);
    ("Y", mkHeaderDeclaration ["W"] ["struct Y;"]);
    ("Z", mkHeaderDeclaration ["W"] ["struct Z;"]);
    ("W", mkHeaderDeclaration [] ["struct W;"]) ].

Definition diamond_rank (name : string) : nat :=
  if bool_decide (name = "X") then 2
  else if bool_decide (name = "W") then 0
  else 1.

(** The loop invariant of the sort: [sorted] lists, with their names, the
    declarations appended to [result] so far. *)
Record sort_inv (declarations : list (string * HeaderDeclaration))
    (st : SortState) (sorted : list (string * HeaderDeclaration)) : Prop := {
  inv_result : result st = sorted.*2;
  inv_sorted : ∀ x d, (x, d) ∈ sorted → (x, d) ∈ declarations;
  inv_marks : ∀ k,
    marked_declarations st !! k
    = (λ d, {| declaration := d; mark := bool_decide (k ∈ sorted.*1) |})
        <$> (list_to_map declarations : gmap string HeaderDeclaration) !! k;
  inv_nodup : NoDup sorted.*1;
  inv_order : ∀ j x dx y,
    sorted !! j = Some (x, dx) → y ∈ dependencies dx →
    ∃ i dy, i < j ∧ sorted !! i = Some (y, dy);
}.

(** What a run that has not raised keeps true, cyclic graph or not:
    [sort_inv] without the distinctness of the names in [sorted]. *)
Record visit_inv (declarations : list (string * HeaderDeclaration))
    (st : SortState) (sorted : list (string * HeaderDeclaration)) : Prop := {
  vi_result : result st = sorted.*2;
  vi_sorted : ∀ x d, (x, d) ∈ sorted → (x, d) ∈ declarations;
  vi_marks : ∀ k,
    marked_declarations st !! k
    = (λ d, {| declaration := d; mark := bool_decide (k ∈ sorted.*1) |})
        <$> (list_to_map declarations : gmap string HeaderDeclaration) !! k;
  vi_order : ∀ j x dx y,
    sorted !! j = Some (x, dx) → y ∈ dependencies dx →
    ∃ i dy, i < j ∧ sorted !! i = Some (y, dy);
}.

(** The declarations are listed in dependency order already. *)
Definition dependency_ordered
    (declarations : list (string * HeaderDeclaration)) : Prop :=
  ∀ j x dx y,
    declarations !! j = Some (x, dx) → y ∈ dependencies dx →
    ∃ i dy, i < j ∧ declarations !! i = Some (y, dy).

(** The position of the first entry of that name. *)
Definition first_position (sorted : list (string * HeaderDeclaration))
    (x : string) : nat :=
  match list_find (λ k, k = x) sorted.*1 with
  | Some (i, _) => i
  | None => 0
  end.

(** *** Declaring globals

    [self.context.declarations] is threaded explicitly; a new key goes to
    the end of the dictionary. *)
Definition declare_global (declarations : list (string * HeaderDeclaration))
    (type_spaced name : string) (static : bool)
    : list (string * HeaderDeclaration) :=
  let static_str := if static then "static " else "" in
  if bool_decide (name ∉ declarations.*1)
  then declarations
       ++ [(name, mkHeaderDeclaration []
                    [static_str +:+ type_spaced +:+ name +:+ ";"])]
  else declarations.

Definition declare_internal_globals
    (declarations : list (string * HeaderDeclaration)) :=
  declare_global declarations "PyObject *" "_globals" true.

Definition declare_import (declarations : list (string * HeaderDeclaration))
    (imp : string) :=
  declare_global declarations "CPyModule *" (c_module_name imp) true.

Definition declare_imports (declarations : list (string * HeaderDeclaration))
    (imps : list string) :=
  foldl declare_import declarations imps.

Definition declare_static_pyobject
    (declarations : list (string * HeaderDeclaration)) (symbol : string) :=
  declare_global declarations "PyObject *" symbol true.

(** The contexts the declaring methods build, starting from an empty
    one. *)
Inductive globals_declared : list (string * HeaderDeclaration) → Prop :=
| declared_none : globals_declared []
| declared_global ds type_spaced name static :
    globals_declared ds →
    globals_declared (declare_global ds type_spaced name static)
| declared_internal_globals ds :
    globals_declared ds → globals_declared (declare_internal_globals ds)
| declared_import ds imp :
    globals_declared ds → globals_declared (declare_import ds imp)
| declared_imports ds imps :
    globals_declared ds → globals_declared (declare_imports ds imps)
| declared_static_pyobject ds symbol :
    globals_declared ds → globals_declared (declare_static_pyobject ds symbol).

(** *** The emitter

    [Emitter] of [mypyc/emit.py] as the assembler uses it: the lines handed
    to it, in order.  Code that emits and may raise maps the lines emitted
    so far to the lines emitted when it ends, and how it ends. *)
Definition Emit (A : Type) : Type := list string → list string * Result A.

Global Instance Emit_ret : MRet Emit := λ A a emitted, (emitted, Ok a).

Global Instance Emit_bind : MBind Emit :=
  λ A B f m emitted,
    match m emitted with
    | (emitted', Ok a) => f a emitted'
    | (emitted', Raise e) => (emitted', Raise e)
    end.

Definition Emitter_emit_line (line : string) : Emit unit :=
  λ emitted, (emitted ++ [line], Ok tt).

Definition Emitter_emit_lines (lines : list string) : Emit unit :=
  λ emitted, (emitted ++ lines, Ok tt).

(** An expression that may raise, evaluated between two emissions. *)
Definition evaluate {A : Type} (value : Result A) : Emit A :=
  λ emitted, (emitted, value).

(** A [for] loop over a list. *)
Fixpoint for_in {A : Type} (l : list A) (body : A → Emit unit) : Emit unit :=
  match l with
  | [] => mret tt
  | x :: l' => body x;; for_in l' body
  end.

(** *** generate_module_def

    The name generator, the [PREFIX] constant and the byte-string escaping
    are parameters. *)
Section module_def.
Variable private_name : string → string.
Variable PREFIX : string.
Variable encode_as_c_string : string → string * Z.

Definition dq : string := String "034"%char EmptyString.

(** The line of the method table for [fn], given the value of its
    [cname] argument. *)
Definition method_entry (fn : FuncIR) (cname : string) : string :=
  "{" +:+ dq +:+ fn_name fn +:+ dq +:+ ", (PyCFunction)" +:+ PREFIX
  +:+ cname
  +:+ ", METH_VARARGS | METH_KEYWORDS, NULL /* docstring */},".

(** The [declaration.format(module_name)] of the init function:
    [modules] is [self.modules]. *)
Definition init_declaration (modules : list (string * ModuleIR))
    (module_name : string) : string :=
  if bool_decide (length modules = 1)
  then "PyMODINIT_FUNC PyInit_" +:+ module_name +:+ "(void)"
  else "PyObject *x_PyInit_" +:+ module_name +:+ "(void)".

Definition generate_imports_init_section (imps : list string) : Emit unit :=
  for_in imps (λ imp,
    Emitter_emit_line
      (c_module_name imp +:+ " = PyImport_ImportModule(" +:+ dq +:+ imp
       +:+ dq +:+ ");");;
    Emitter_emit_line ("if (" +:+ c_module_name imp +:+ " == NULL)");;
    Emitter_emit_line "    return NULL;").

(** [fn.cname] is the string [FuncIR.__init__] stores, and the method table
    loop calls it; [module.literals] is an attribute lookup on the
    [ModuleIR].  The keys of a dictionary of strings are [str] objects, so
    the [isinstance] chain of the literal loop takes its third branch for
    them. *)
Definition generate_module_def (modules : list (string * ModuleIR))
    (module_name : string) (module : ModuleIR) : Emit unit :=
  let module_prefix := private_name module_name in
  Emitter_emit_line
    ("static PyMethodDef " +:+ module_prefix +:+ "module_methods[] = {");;
  for_in (functions module) (λ fn,
    cname ← evaluate (str_call (fn_cname fn));
    Emitter_emit_line (method_entry fn cname));;
  Emitter_emit_line "{NULL, NULL, 0, NULL}";;
  Emitter_emit_line "};";;
  Emitter_emit_line "";;
  Emitter_emit_lines
    [ "static struct PyModuleDef " +:+ module_prefix +:+ "module = {";
      "PyModuleDef_HEAD_INIT,";
      dq +:+ module_name +:+ dq +:+ ",";
      "NULL, /* docstring */";
      "-1,       /* size of per-interpreter state of the module,";
      "             or -1 if the module keeps state in global variables. */";
      module_prefix +:+ "module_methods";
      "};" ];;
  Emitter_emit_line "";;
  Emitter_emit_lines
    [ init_declaration modules module_name; "{"; "PyObject *m;" ];;
  for_in (classes module) (λ cl,
    Emitter_emit_lines
      [ "if (PyType_Ready(&" +:+ type_struct cl +:+ ") < 0)";
        "    return NULL;" ]);;
  Emitter_emit_lines
    [ "m = PyModule_Create(&" +:+ module_prefix +:+ "module);";
      "if (m == NULL)"; "    return NULL;" ];;
  Emitter_emit_lines
    [ "_globals = PyModule_GetDict(m);";
      "if (_globals == NULL)"; "    return NULL;" ];;
  generate_imports_init_section (imports module);;
  literals ← evaluate (ModuleIR_getattr module "literals");
  items ← evaluate (Attr_items literals);
  for_in items (λ '(literal, symbol),
    let '(quoted, size) := encode_as_c_string literal in
    Emitter_emit_lines
      [ symbol +:+ " = PyUnicode_FromStringAndSize(" +:+ quoted
          +:+ ", " +:+ pretty size +:+ ");";
        "if (" +:+ symbol +:+ " == NULL)";
        "    return NULL;" ]);;
  for_in (classes module) (λ cl,
    Emitter_emit_lines
      [ "Py_INCREF(&" +:+ type_struct cl +:+ ");";
        "PyModule_AddObject(m, " +:+ dq +:+ class_name cl +:+ dq
          +:+ ", (PyObject *" +:+ ")&" +:+ type_struct cl +:+ ");" ]);;
  Emitter_emit_line "return m;";;
  Emitter_emit_line "}".
End module_def.

End EmitModule.

(** * Properties *)

Import Ops SameType EmitFunc EmitModule.

(** ** The list traversals *)

Section traversal_facts.
Context {A B : Type}.
Implicit Types (f : A → B → bool) (p : B → bool).

Lemma all_zip_Forall2 f l1 l2 :
  length l1 = length l2 →
  all_zip f l1 l2 = true ↔ Forall2 (λ x y, f x y = true) l1 l2.
Proof.
  revert l2. induction l1 as [|x l1 IH]; intros [|y l2] Hlen; simplify_eq/=.
  - split; [constructor|done].
  - rewrite andb_true_iff, IH by done. split.
    + intros [??]. by constructor.
    + by inv 1.
Qed.

Lemma del_first_None p items :
  del_first p items = None ↔ Forall (λ y, p y = false) items.
Proof.
  induction items as [|y items IH]; simpl.
  - split; [constructor|done].
  - destruct (p y) eqn:Hy.
    + split; [done|]. inv 1. congruence.
    + rewrite fmap_None, IH. split; [by constructor|by inv 1].
Qed.

Lemma del_first_Some p items items' :
  del_first p items = Some items' →
  ∃ l1 y l2, items = l1 ++ y :: l2 ∧ items' = l1 ++ l2 ∧ p y = true.
Proof.
  revert items'. induction items as [|y items IH]; intros items'; simpl; [done|].
  destruct (p y) eqn:Hy.
  - intros [= <-]. by exists [], y, items.
  - rewrite fmap_Some. intros (k & Hk & ->).
    destruct (IH _ Hk) as (l1 & z & l2 & -> & -> & Hz).
    by exists (y :: l1), z, l2.
Qed.

(** A successful run of the union loops pairs every left item with a
    distinct right item. *)
Lemma match_items_sound f ls items :
  match_items f ls items = true →
  ∃ items', items' ≡ₚ items ∧ Forall2 (λ x y, f x y = true) ls items'.
Proof.
  revert items. induction ls as [|x ls IH]; intros items; simpl.
  - destruct items; [|done]. by exists [].
  - destruct (del_first (f x) items) as [rest|] eqn:Hdel; [|done].
    intros (items' & Hperm & Hall)%IH.
    apply del_first_Some in Hdel as (l1 & y & l2 & -> & -> & Hy).
    exists (y :: items'). split; [|by constructor].
    by rewrite Hperm, Permutation_middle.
Qed.

Lemma rectangle_weaken f ls ls' items items' :
  (∀ x, x ∈ ls' → x ∈ ls) → (∀ y, y ∈ items' → y ∈ items) →
  rectangle f ls items → rectangle f ls' items'.
Proof. intros Hl Hi Hr a b c d ????. apply Hr; auto. Qed.

Lemma match_items_complete f ls items' items :
  rectangle f ls items →
  Forall2 (λ x y, f x y = true) ls items' → items' ≡ₚ items →
  match_items f ls items = true.
Proof.
  revert items' items.
  induction ls as [|x ls IH]; intros items' items Hrect Hall Hperm.
  { inv Hall. apply Permutation_nil_l in Hperm. by subst. }
  apply Forall2_cons_inv_l in Hall as (y' & items'' & Hxy' & Hall & ->).
  simpl. destruct (del_first (f x) items) as [rest|] eqn:Hdel.
  - apply del_first_Some in Hdel as (l1 & z & l2 & -> & -> & Hz).
    assert (Hy'in : y' ∈ l1 ++ z :: l2) by (rewrite <-Hperm; left).
    assert (Hzin : z ∈ l1 ++ z :: l2).
    { apply elem_of_app. right. left. }
    assert (rectangle f ls (l1 ++ l2)) as Hrect'.
    { eapply rectangle_weaken; [| |done].
      - intros ??. by right.
      - intros ?. rewrite !elem_of_app, elem_of_cons. tauto. }
    rewrite <-Permutation_middle in Hperm. symmetry in Hperm.
    apply Permutation_cons_inv_l in Hperm as (k1 & k2 & Heq & Hperm).
    destruct k1 as [|z' k1]; simplify_eq/=.
    + by eapply IH.
    + apply Forall2_app_inv_r in Hall as (la & lb' & Hla & Hlb & ->).
      apply Forall2_cons_inv_r in Hlb as (xk & lb & Hxk & Hlb & ->).
      apply (IH (k1 ++ z' :: k2)); [done| |].
      * apply Forall2_app; [done|]. constructor; [|done].
        apply (Hrect xk x z z'); try done; [|left].
        right. apply elem_of_app. right. left.
      * by rewrite <-Permutation_middle, Hperm.
  - apply del_first_None in Hdel. rewrite <-Hperm in Hdel.
    inv Hdel. congruence.
Qed.
End traversal_facts.

Section relation_facts.
Context {A : Type} (f : A → A → bool).
Implicit Types xs ys zs : list A.

Local Abbreviation R := (λ x y, f x y = true).

Lemma rectangle_left xs ys :
  Forall (sym_at f) xs → Forall (trans_at f) xs → rectangle f xs ys.
Proof.
  rewrite !Forall_forall. intros Hsym Htrans a b c d Ha Hb _ _ Hac Hbc Hbd.
  apply (Htrans a Ha b d); [|done].
  apply (Htrans a Ha c b); [done|]. by rewrite <-(Hsym b Hb c).
Qed.

Lemma rectangle_right xs ys :
  Forall (sym_at f) xs → Forall (trans_at f) xs → rectangle f ys xs.
Proof.
  rewrite !Forall_forall. intros Hsym Htrans a b c d _ _ Hc Hd Hac Hbc Hbd.
  rewrite <-(Hsym d Hd a). apply (Htrans d Hd c a).
  - apply (Htrans d Hd b c); [|done]. by rewrite (Hsym d Hd b).
  - by rewrite (Hsym c Hc a).
Qed.

Lemma Forall2_flip_sym xs ys :
  Forall (sym_at f) xs → Forall2 R xs ys → Forall2 R ys xs.
Proof.
  intros Hsym Hall. induction Hall as [|x y xs ys Hxy Hall IH]; [constructor|].
  inv Hsym. constructor; [|by apply IH]. by rewrite <-(H1 y).
Qed.

Lemma Forall2_flip_sym_r xs ys :
  Forall (sym_at f) xs → Forall2 R ys xs → Forall2 R xs ys.
Proof.
  intros Hsym Hall. induction Hall as [|y x ys xs Hxy Hall IH]; [constructor|].
  inv Hsym. constructor; [|by apply IH]. by rewrite (H1 y).
Qed.

Lemma Forall2_compose xs ys zs :
  Forall (trans_at f) xs → Forall2 R xs ys → Forall2 R ys zs → Forall2 R xs zs.
Proof.
  intros Htrans Hxy. revert zs.
  induction Hxy as [|x y xs ys Hxy Hall IH]; intros zs Hyz; inv Hyz; inv Htrans;
    constructor; eauto.
Qed.

Lemma match_items_refl xs :
  Forall (λ x, f x x = true) xs → match_items f xs xs = true.
Proof. induction 1 as [|x xs Hx _ IH]; simpl; [done|]. by rewrite Hx. Qed.

Lemma match_items_flip xs ys :
  Forall (sym_at f) xs → Forall (trans_at f) xs →
  match_items f xs ys = true → match_items f ys xs = true.
Proof.
  intros Hsym Htrans (ys' & Hperm & Hall)%match_items_sound.
  apply Forall2_flip_sym in Hall; [|done].
  assert (∃ xs', xs ≡ₚ xs' ∧ Forall2 R ys xs') as (xs' & Hperm' & Hall').
  { destruct (Permutation_Forall2 Hperm Hall) as (xs' & ? & ?). eauto. }
  eapply match_items_complete; [by apply rectangle_right|done|done].
Qed.

Lemma match_items_flip_r xs ys :
  Forall (sym_at f) xs → Forall (trans_at f) xs →
  match_items f ys xs = true → match_items f xs ys = true.
Proof.
  intros Hsym Htrans (xs' & Hperm & Hall)%match_items_sound.
  apply Forall2_flip_sym_r in Hall; [|by rewrite Hperm].
  destruct (Permutation_Forall2 Hperm Hall) as (ys' & Hperm' & Hall').
  eapply match_items_complete; [by apply rectangle_left|done|done].
Qed.

Lemma match_items_sym xs ys :
  Forall (sym_at f) xs → Forall (trans_at f) xs →
  match_items f xs ys = match_items f ys xs.
Proof.
  intros Hsym Htrans.
  destruct (match_items f xs ys) eqn:Hxy, (match_items f ys xs) eqn:Hyx;
    try done.
  - apply match_items_flip in Hxy; [congruence|done..].
  - apply match_items_flip_r in Hyx; [congruence|done..].
Qed.

Lemma match_items_trans xs ys zs :
  Forall (sym_at f) xs → Forall (trans_at f) xs →
  match_items f xs ys = true → match_items f ys zs = true →
  match_items f xs zs = true.
Proof.
  intros Hsym Htrans (ys' & Hpy & Hxy)%match_items_sound
    (zs' & Hpz & Hyz)%match_items_sound.
  symmetry in Hpy.
  destruct (Permutation_Forall2 Hpy Hyz) as (zs'' & Hpz' & Hyz').
  eapply match_items_complete; [by apply rectangle_left| |].
  - by eapply Forall2_compose.
  - by rewrite <-Hpz'.
Qed.

Lemma all_zip_refl xs :
  Forall (λ x, f x x = true) xs → all_zip f xs xs = true.
Proof. induction 1 as [|x xs Hx _ IH]; simpl; [done|]. by rewrite Hx. Qed.

Lemma all_zip_sym xs ys :
  Forall (sym_at f) xs → all_zip f xs ys = all_zip f ys xs.
Proof.
  intros Hsym. revert ys.
  induction Hsym as [|x xs Hx _ IH]; intros [|y ys]; simpl; try done.
  by rewrite (Hx y), IH.
Qed.

Lemma all_zip_trans xs ys zs :
  Forall (trans_at f) xs → length xs = length ys →
  all_zip f xs ys = true → all_zip f ys zs = true → all_zip f xs zs = true.
Proof.
  intros Htrans. revert ys zs.
  induction Htrans as [|x xs Hx _ IH]; intros [|y ys] [|z zs] Hlen;
    simplify_eq/=; try done.
  rewrite !andb_true_iff. intros [??] [??]. split; [by eapply Hx|by eapply IH].
Qed.
End relation_facts.

(** ** sametype.py *)

Section same_type_facts.

Lemma is_same_type_tuple ltypes rtypes :
  is_same_type (RTuple ltypes) (RTuple rtypes)
  = bool_decide (length rtypes = length ltypes)
    && all_zip is_same_type ltypes rtypes.
Proof. done. Qed.

Lemma is_same_type_union litems ritems :
  is_same_type (RUnion litems) (RUnion ritems)
  = match_items is_same_type litems ritems.
Proof. done. Qed.

(** [is_same_type] is an equivalence relation; the three properties are
    proved together because the union case of symmetry uses transitivity
    on the items. *)
Lemma is_same_type_equivalence a :
  is_same_type a a = true
  ∧ sym_at is_same_type a
  ∧ trans_at is_same_type a.
Proof.
  induction a as [n u r c|ts IH|c|v IH|ts IH|] using RType_nested_ind.
  - split_and!.
    + simpl. by apply bool_decide_eq_true.
    + intros [] ; simpl; try done. apply bool_decide_ext. naive_solver.
    + intros [] []; simpl; try done.
      rewrite !bool_decide_eq_true. congruence.
  - assert (Forall (λ x, is_same_type x x = true) ts) as Hrefl
      by (eapply Forall_impl; [exact IH|]; by intros ? (?&?&?)).
    assert (Forall (sym_at is_same_type) ts) as Hsym
      by (eapply Forall_impl; [exact IH|]; by intros ? (?&?&?)).
    assert (Forall (trans_at is_same_type) ts) as Htrans
      by (eapply Forall_impl; [exact IH|]; by intros ? (?&?&?)).
    split_and!.
    + rewrite is_same_type_tuple, all_zip_refl by done.
      by rewrite bool_decide_true.
    + intros [| rs | | | |]; try done.
      rewrite !is_same_type_tuple, (all_zip_sym _ ts rs) by done.
      f_equal. apply bool_decide_ext. naive_solver.
    + intros [| rs | | | |] [| qs | | | |]; try done.
      rewrite !is_same_type_tuple, !andb_true_iff, !bool_decide_eq_true.
      intros [Hl1 ?] [Hl2 ?]. split; [congruence|].
      by apply (all_zip_trans _ ts rs qs).
  - split_and!.
    + simpl. by apply bool_decide_eq_true.
    + intros []; simpl; try done. apply bool_decide_ext. naive_solver.
    + intros [] []; simpl; try done.
      rewrite !bool_decide_eq_true. congruence.
  - destruct IH as (Hrefl & Hsym & Htrans). split_and!.
    + done.
    + intros []; simpl; try done.
    + intros [] []; simpl; try done. apply Htrans.
  - assert (Forall (λ x, is_same_type x x = true) ts) as Hrefl
      by (eapply Forall_impl; [exact IH|]; by intros ? (?&?&?)).
    assert (Forall (sym_at is_same_type) ts) as Hsym
      by (eapply Forall_impl; [exact IH|]; by intros ? (?&?&?)).
    assert (Forall (trans_at is_same_type) ts) as Htrans
      by (eapply Forall_impl; [exact IH|]; by intros ? (?&?&?)).
    split_and!.
    + rewrite is_same_type_union. by apply match_items_refl.
    + intros [| | | | rs |]; try done.
      rewrite !is_same_type_union. by apply match_items_sym.
    + intros [| | | | rs |] [| | | | qs |]; try done.
      rewrite !is_same_type_union. by apply match_items_trans.
  - split_and!; [done| |].
    + by intros [].
    + by intros [] [].
Qed.

Lemma is_same_type_tuple_iff l1 l2 :
  is_same_type (RTuple l1) (RTuple l2) = true ↔
  length l1 = length l2
  ∧ ∀ i t1 t2, l1 !! i = Some t1 → l2 !! i = Some t2 →
      is_same_type t1 t2 = true.
Proof.
  rewrite is_same_type_tuple, andb_true_iff, bool_decide_eq_true. split.
  - intros [Hlen Hall]. split; [done|].
    apply all_zip_Forall2 in Hall; [|done]. intros i t1 t2 H1 H2.
    by eapply Forall2_lookup_lr in Hall.
  - intros [Hlen Hall]. split; [done|].
    apply all_zip_Forall2; [done|]. by apply Forall2_same_length_lookup_2.
Qed.

(** C4: [is_same_type] is reflexive and symmetric on all [RType]s, and it
    is false whenever the two arguments belong to different variants,
    whatever their names. *)
Theorem is_same_type_refl_sym_discriminating (a b : RType) :
  is_same_type a a = true
  ∧ is_same_type a b = is_same_type b a
  ∧ (variant a ≠ variant b → is_same_type a b = false).
Proof.
  destruct (is_same_type_equivalence a) as (Hrefl & Hsym & _).
  split_and!; [done|apply Hsym|].
  by destruct a, b.
Qed.

Lemma is_same_type_refl_sym_discriminating_witness :
  is_same_type (RPrimitive "C" false true PyObjectPtr)
    (RInstance (mkClassIR "C" [] [])) = false.
Proof.
  apply (proj2 (proj2 (is_same_type_refl_sym_discriminating
    (RPrimitive "C" false true PyObjectPtr) (RInstance (mkClassIR "C" [] []))))).
  simpl. discriminate.
Defined.

(** C5: two fixed-length tuple types are the same type exactly when they
    have the same arity and the element types at every position are the
    same; a different arity, or one element replaced by a type that is not
    the same, makes the comparison false. *)
Theorem is_same_type_tuple_pairwise (l1 l2 : list RType) :
  (is_same_type (RTuple l1) (RTuple l2) = true ↔
     length l1 = length l2
     ∧ ∀ i t1 t2, l1 !! i = Some t1 → l2 !! i = Some t2 →
         is_same_type t1 t2 = true)
  ∧ (length l1 ≠ length l2 → is_same_type (RTuple l1) (RTuple l2) = false)
  ∧ (∀ i t u,
       is_same_type (RTuple l1) (RTuple l2) = true →
       l1 !! i = Some t → is_same_type t u = false →
       is_same_type (RTuple l1) (RTuple (<[i:=u]> l2)) = false).
Proof.
  split_and!.
  - apply is_same_type_tuple_iff.
  - intros Hlen. rewrite is_same_type_tuple, bool_decide_false; [done|congruence].
  - intros i t u [Hlen _]%is_same_type_tuple_iff Ht Hu.
    apply not_true_is_false. intros [_ Hall]%is_same_type_tuple_iff.
    rewrite (Hall i t u) in Hu; [done..|].
    apply list_lookup_insert_eq. rewrite <-Hlen. by eapply lookup_lt_Some.
Qed.

Lemma is_same_type_tuple_pairwise_witness :
  is_same_type (RTuple [int_rprimitive; str_rprimitive])
    (RTuple [int_rprimitive])= false
  ∧ is_same_type (RTuple [int_rprimitive; str_rprimitive])
      (RTuple [int_rprimitive; bool_rprimitive]) = false.
Proof.
  split.
  - apply (proj1 (proj2 (is_same_type_tuple_pairwise
      [int_rprimitive; str_rprimitive] [int_rprimitive]))).
    simpl. discriminate.
  - apply (proj2 (proj2 (is_same_type_tuple_pairwise
      [int_rprimitive; str_rprimitive] [int_rprimitive; str_rprimitive]))
      1 str_rprimitive bool_rprimitive); reflexivity.
Defined.

Lemma same_arg_true t1 t2 :
  same_arg t1 t2 = true ↔
  is_same_type (arg_type t1) (arg_type t2) = true ∧ arg_name t1 = arg_name t2.
Proof. unfold same_arg. by rewrite andb_true_iff, bool_decide_eq_true. Qed.

Lemma all_zip_same_arg l1 l2 :
  length l1 = length l2 →
  all_zip same_arg l1 l2 = true ↔
  Forall2 (λ t1 t2, is_same_type (arg_type t1) (arg_type t2) = true
                    ∧ arg_name t1 = arg_name t2) l1 l2.
Proof.
  intros Hlen. rewrite all_zip_Forall2 by done.
  split; intros Hall; (eapply Forall2_impl; [exact Hall|]); intros ??;
    by rewrite same_arg_true.
Qed.

(** C2, as the code has it: both comparisons require equal arity and the
    same return type; the plain comparison requires, at every position,
    the same argument type and the same argument name; the method
    comparison requires the same, type and name, at every position after
    the first, and does not look at the first argument. *)
Theorem signature_comparisons (a b : FuncSignature) :
  (is_same_signature a b = true ↔
     length (sig_args a) = length (sig_args b)
     ∧ is_same_type (sig_ret_type a) (sig_ret_type b) = true
     ∧ Forall2 (λ t1 t2, is_same_type (arg_type t1) (arg_type t2) = true
                         ∧ arg_name t1 = arg_name t2)
         (sig_args a) (sig_args b))
  ∧ (is_same_method_signature a b = true ↔
     length (sig_args a) = length (sig_args b)
     ∧ is_same_type (sig_ret_type a) (sig_ret_type b) = true
     ∧ Forall2 (λ t1 t2, is_same_type (arg_type t1) (arg_type t2) = true
                         ∧ arg_name t1 = arg_name t2)
         (drop 1 (sig_args a)) (drop 1 (sig_args b))).
Proof.
  unfold is_same_signature, is_same_method_signature.
  rewrite !andb_true_iff, !bool_decide_eq_true. split.
  - split.
    + intros [[Hlen ?] ?]. by rewrite <-all_zip_same_arg.
    + intros (Hlen & ? & ?). by rewrite all_zip_same_arg.
  - split.
    + intros [[Hlen ?] ?]. rewrite <-all_zip_same_arg; [done|].
      by rewrite !length_drop, Hlen.
    + intros (Hlen & ? & ?). rewrite all_zip_same_arg; [done|].
      by rewrite !length_drop, Hlen.
Qed.

(** C2, as stated, fails: two method signatures that agree on arity, on the
    return type and on every argument type, and differ only in the name of
    an argument after the receiver, are not the same method signature. *)
Lemma method_signature_names_counterexample :
  length [mkRuntimeArg "self" object_rprimitive; mkRuntimeArg "x" int_rprimitive]
  = length [mkRuntimeArg "self" object_rprimitive; mkRuntimeArg "y" int_rprimitive]
  ∧ is_same_type int_rprimitive int_rprimitive = true
  ∧ Forall2 (λ t1 t2, is_same_type (arg_type t1) (arg_type t2) = true)
      (drop 1 [mkRuntimeArg "self" object_rprimitive;
               mkRuntimeArg "x" int_rprimitive])
      (drop 1 [mkRuntimeArg "self" object_rprimitive;
               mkRuntimeArg "y" int_rprimitive])
  ∧ is_same_method_signature
      (mkFuncSignature
         [mkRuntimeArg "self" object_rprimitive; mkRuntimeArg "x" int_rprimitive]
         int_rprimitive)
      (mkFuncSignature
         [mkRuntimeArg "self" object_rprimitive; mkRuntimeArg "y" int_rprimitive]
         int_rprimitive)
    = false.
Proof. split_and!; try done. repeat constructor. Qed.

End same_type_facts.

(** ** ops.py *)

Section module_ir_facts.

(** C3, as the code has it: the constructed import list always contains
    the root builtins module; when the given list lacks it, it is put at
    position 0; when the given list has it, at whatever position, the list
    is kept as given; the other imports keep their relative order. *)
Theorem ModuleIR_init_imports (imps : list string)
    (lits : list (string * string)) (fns : list FuncIR) (cls : list ClassIR) :
  "builtins" ∈ imports (ModuleIR_init imps lits fns cls)
  ∧ ("builtins" ∉ imps →
       imports (ModuleIR_init imps lits fns cls) = "builtins" :: imps)
  ∧ ("builtins" ∈ imps → imports (ModuleIR_init imps lits fns cls) = imps)
  ∧ filter (λ i, i ≠ "builtins") (imports (ModuleIR_init imps lits fns cls))
    = filter (λ i, i ≠ "builtins") imps.
Proof.
  unfold ModuleIR_init; simpl. case_bool_decide as Hin; split_and!; try done.
  left.
Qed.

Lemma ModuleIR_init_imports_witness :
  imports (ModuleIR_init ["os"; "sys"] [] [] []) = ["builtins"; "os"; "sys"]
  ∧ imports (ModuleIR_init ["os"; "builtins"; "sys"] [] [] [])
    = ["os"; "builtins"; "sys"].
Proof.
  split.
  - apply (proj1 (proj2 (ModuleIR_init_imports ["os"; "sys"] [] [] []))).
    rewrite !elem_of_cons, elem_of_nil. by intros [|[|]].
  - apply (proj1 (proj2 (proj2
      (ModuleIR_init_imports ["os"; "builtins"; "sys"] [] [] [])))).
    rewrite !elem_of_cons. auto.
Defined.

(** C3, as stated, fails: a given list that has the builtins module at a
    later position is kept, so its first element is not the builtins
    module. *)
Lemma ModuleIR_init_first_counterexample :
  imports (ModuleIR_init ["os"; "builtins"] [] [] []) !! 0 = Some "os".
Proof. reflexivity. Qed.

End module_ir_facts.

Section slot_facts.

Lemma list_find_NoDup_fmap {A} (key : A → string) (l : list A) i x :
  NoDup (key <$> l) → l !! i = Some x →
  list_find (λ y, key y = key x) l = Some (i, x).
Proof.
  intros Hnd Hi. apply list_find_Some. split_and!; [done..|].
  intros j y Hj Hlt Heq.
  assert (j = i); [|lia].
  apply (NoDup_lookup _ _ _ (key x) Hnd); rewrite list_lookup_fmap.
  - by rewrite Hj, <-Heq.
  - by rewrite Hi.
Qed.

(** C7: in a class whose attribute names are distinct and whose method
    names are distinct, the attribute at position [i] has getter slot
    [2*i] and setter slot [2*i+1], and the method at position [j] has slot
    [2 * number of attributes + j]. *)
Theorem slot_indices (class_ir : ClassIR) :
  NoDup (class_attributes class_ir).*1 →
  NoDup (fn_name <$> class_methods class_ir) →
  (∀ i attr rtype, class_attributes class_ir !! i = Some (attr, rtype) →
     getter_index class_ir attr = Some (2 * i)
     ∧ setter_index class_ir attr = Some (2 * i + 1))
  ∧ (∀ j fn, class_methods class_ir !! j = Some fn →
     method_index class_ir (fn_name fn)
     = Some (2 * length (class_attributes class_ir) + j)).
Proof.
  intros Hattrs Hmethods. split.
  - intros i attr rtype Hi.
    assert (getter_index class_ir attr = Some (2 * i)) as Hget.
    { unfold getter_index.
      rewrite (list_find_NoDup_fmap fst _ i (attr, rtype)) by done.
      f_equal. lia. }
    split; [done|]. unfold setter_index. by rewrite Hget.
  - intros j fn Hj. unfold method_index.
    rewrite (list_find_NoDup_fmap fn_name _ j fn) by done.
    f_equal. lia.
Qed.

Lemma slot_indices_witness :
  (getter_index scenario_class "a" = Some 0
   ∧ setter_index scenario_class "a" = Some 1)
  ∧ (getter_index scenario_class "b" = Some 2
     ∧ setter_index scenario_class "b" = Some 3)
  ∧ method_index scenario_class "f" = Some 4
  ∧ method_index scenario_class "g" = Some 5.
Proof.
  assert (NoDup (class_attributes scenario_class).*1) as Ha.
  { compute_done. }
  assert (NoDup (fn_name <$> class_methods scenario_class)) as Hm.
  { compute_done. }
  split; [|split; [|split]].
  - exact (proj1 (slot_indices scenario_class Ha Hm) 0 "a" int_rprimitive eq_refl).
  - exact (proj1 (slot_indices scenario_class Ha Hm) 1 "b" str_rprimitive eq_refl).
  - exact (proj2 (slot_indices scenario_class Ha Hm) 0 _ eq_refl).
  - exact (proj2 (slot_indices scenario_class Ha Hm) 1 _ eq_refl).
Defined.

End slot_facts.

Section environment_facts.

Lemma size_insert_le {K} `{Countable K} {V} (m : gmap K V) k v :
  (size m ≤ size (<[k := v]> m) ≤ S (size m))%nat.
Proof. rewrite map_size_insert. destruct (m !! k); simpl; lia. Qed.

Lemma env_wf_fresh (self : Environment) :
  env_wf self → names self !! CRegister (Z.of_nat (size (names self))) = None.
Proof.
  intros Hwf. apply eq_None_not_Some. intros Hsome%Hwf. lia.
Qed.

Lemma env_wf_init : env_wf Environment_init.
Proof. intros n [x Hx]. simpl in Hx. by rewrite lookup_empty in Hx. Qed.

Lemma env_wf_add (self : Environment) reg name typ :
  env_wf self →
  (∀ n, reg = CRegister n → (0 ≤ n ≤ Z.of_nat (size (names self)))%Z) →
  env_wf (add self reg name typ).
Proof.
  intros Hwf Hreg n. simpl.
  pose proof (size_insert_le (names self) reg name) as Hsize.
  destruct (decide (reg = CRegister n)) as [->|Hne].
  - intros _. specialize (Hreg n eq_refl).
    destruct (decide (n = Z.of_nat (size (names self)))) as [->|].
    + rewrite map_size_insert_None by by apply env_wf_fresh. lia.
    + lia.
  - rewrite lookup_insert_ne by done. intros Hn%Hwf. lia.
Qed.

Lemma env_wf_add_temp (self : Environment) typ :
  env_wf self → env_wf (add_temp self typ).2.
Proof.
  intros Hwf. unfold add_temp. simpl.
  apply (env_wf_add self _ ("r" +:+ pretty (temp_index self)) typ Hwf).
  intros n [= <-]. lia.
Qed.

Lemma env_wf_add_op (self : Environment) op_id reg_type :
  env_wf self → env_wf (add_op self op_id reg_type).
Proof.
  intros Hwf. destruct reg_type as [typ|]; [|done].
  apply (env_wf_add self _ ("r" +:+ pretty (temp_index self)) typ Hwf).
  intros n [=].
Qed.

(** C9, as the code has it: [add_local] asserts only that its argument is
    a [Var].  For every environment and every [Var], bound already or
    not, it succeeds, returns the register numbered by the count of named
    registers and binds the variable to it, recording the variable's name
    and type; in an environment that obeys the numbering invariant that
    register is not yet named, and the invariant is kept. *)
Theorem add_local_binds (self : Environment) (v : Var) (typ : RType) :
  ∃ self',
    add_local self (VarObject v) typ
    = Some (CRegister (Z.of_nat (size (names self))), self')
    ∧ lookup self' v = Some (CRegister (Z.of_nat (size (names self))))
    ∧ names self' !! CRegister (Z.of_nat (size (names self)))
      = Some (var_name v)
    ∧ types self' !! CRegister (Z.of_nat (size (names self))) = Some typ
    ∧ (env_wf self →
         names self !! CRegister (Z.of_nat (size (names self))) = None
         ∧ env_wf self').
Proof.
  eexists. split; [reflexivity|]. unfold lookup; simpl.
  rewrite !lookup_insert_eq. split_and!; try done.
  intros Hwf. split; [by apply env_wf_fresh|].
  apply (env_wf_add
    {| indexes := indexes self; names := names self; types := types self;
       symtable := <[v := CRegister (Z.of_nat (size (names self)))]>
                     (symtable self);
       temp_index := temp_index self |} _ (var_name v) typ); [done|].
  simpl. intros n [= <-]. lia.
Qed.

Lemma add_local_binds_witness :
  ∃ self',
    add_local Environment_init (VarObject (mkVar 0 "x")) int_rprimitive
    = Some (CRegister 0, self')
    ∧ names Environment_init !! CRegister 0 = None
    ∧ env_wf self'.
Proof.
  destruct (add_local_binds Environment_init (mkVar 0 "x") int_rprimitive)
    as (self' & Hadd & _ & _ & _ & Hwf).
  exists self'. split; [exact Hadd|]. exact (Hwf env_wf_init).
Defined.

(** C9, as stated, fails: a second [add_local] for a variable that is
    already bound does not fail; it binds the variable again, to the next
    register. *)
Lemma add_local_twice_counterexample :
  ∃ self1 self2,
    add_local Environment_init (VarObject (mkVar 0 "x")) int_rprimitive
    = Some (CRegister 0, self1)
    ∧ lookup self1 (mkVar 0 "x") = Some (CRegister 0)
    ∧ add_local self1 (VarObject (mkVar 0 "x")) int_rprimitive
      = Some (CRegister 1, self2)
    ∧ lookup self2 (mkVar 0 "x") = Some (CRegister 1).
Proof.
  eexists _, _. split; [reflexivity|]. split.
  { unfold lookup; simpl. by rewrite lookup_insert_eq. }
  split.
  { unfold add_local at 1. simpl names.
    rewrite map_size_insert_None, map_size_empty by done. reflexivity. }
  unfold lookup; simpl. by rewrite lookup_insert_eq.
Qed.

(** The assertion [add_local] does make. *)
Lemma add_local_not_var (self : Environment) (typ : RType) :
  add_local self OtherObject typ = None.
Proof. done. Qed.

End environment_facts.

Section branch_facts.

(** C10: [invert] swaps the two labels and toggles [negated], leaves every
    other field as it was, and undoes itself when applied twice. *)
Theorem invert_swaps_and_is_involutive (b : Branch) :
  br_true (invert b) = br_false b
  ∧ br_false (invert b) = br_true b
  ∧ br_negated (invert b) = negb (br_negated b)
  ∧ br_left (invert b) = br_left b
  ∧ br_right (invert b) = br_right b
  ∧ br_op (invert b) = br_op b
  ∧ br_line (invert b) = br_line b
  ∧ br_traceback_entry (invert b) = br_traceback_entry b
  ∧ invert (invert b) = b.
Proof.
  destruct b as [line l r t f op neg tb]. unfold invert; simpl.
  split_and!; try done. by rewrite negb_involutive.
Qed.

End branch_facts.

(** ** emitfunc.py *)

Section load_error_value_facts.
Context `{EmitterInterface E}.
Variables union_undefined void_undefined : option string.
Variable rtuple_hash : list RType → Z.

Local Abbreviation c_undefined_value :=
  (c_undefined_value union_undefined void_undefined).
Local Abbreviation visit_load_error_value :=
  (visit_load_error_value union_undefined void_undefined rtuple_hash).

(** Every Primitive, Instance and Optional type has a sentinel that is a
    single expression. *)
Lemma c_undefined_value_defined (t : RType) :
  variant t = VPrimitive ∨ variant t = VInstance ∨ variant t = VOptional →
  is_Some (c_undefined_value t).
Proof. destruct t; simpl; intros [|[|]]; by eauto. Qed.

(** A [LoadErrorValue] has no attribute [rtype], whatever its type. *)
Lemma LoadErrorValue_getattr_rtype (op : LoadErrorValue) :
  LoadErrorValue_getattr op "rtype" = Raise (AttributeError "rtype").
Proof. reflexivity. Qed.

(** C6: a Tuple type has no single-expression sentinel: the assertion of
    [c_undefined_value] fails on it.  Emitting a [LoadErrorValue] does not
    succeed, for a Tuple type or any other: the visitor reads the
    attribute [rtype], the op keeps its type as [_type] (property [type]),
    and the read raises [AttributeError] before anything is emitted. *)
Theorem visit_load_error_value_raises (self : E) (op : LoadErrorValue)
    (types : list RType) :
  assertion (c_undefined_value (RTuple types)) = Raise AssertionError
  ∧ LoadErrorValue_getattr op "type" = Ok (AttrRType (lev_type op))
  ∧ visit_load_error_value self op = Raise (AttributeError "rtype").
Proof. split_and!; reflexivity. Qed.

End load_error_value_facts.

(** ** emitmodule.py *)

Section emit_facts.

Lemma Emit_bind_ok {A B : Type} (m : Emit A) (f : A → Emit B)
    (emitted emitted' : list string) (a : A) :
  m emitted = (emitted', Ok a) → (m ≫= f) emitted = f a emitted'.
Proof. unfold mbind, Emit_bind. by intros ->. Qed.

Lemma Emit_bind_raise {A B : Type} (m : Emit A) (f : A → Emit B)
    (emitted emitted' : list string) (e : Exception) :
  m emitted = (emitted', Raise e) → (m ≫= f) emitted = (emitted', Raise e).
Proof. unfold mbind, Emit_bind. by intros ->. Qed.

(** A loop whose body only emits. *)
Lemma for_in_emits {A : Type} (l : list A) (body : A → Emit unit)
    (lines : A → list string) :
  (∀ x emitted, body x emitted = (emitted ++ lines x, Ok tt)) →
  ∀ emitted, for_in l body emitted = (emitted ++ (l ≫= lines), Ok tt).
Proof.
  intros Hbody. induction l as [|x l IH]; intros emitted; simpl.
  - by rewrite app_nil_r.
  - rewrite (Emit_bind_ok _ _ _ _ _ (Hbody x emitted)), IH.
    by rewrite <-app_assoc.
Qed.

End emit_facts.

Section module_def_facts.
Variable private_name : string → string.
Variable PREFIX : string.
Variable encode_as_c_string : string → string * Z.

Local Abbreviation generate_module_def :=
  (generate_module_def private_name PREFIX encode_as_c_string).

Local Abbreviation import_lines :=
  (λ imp : string,
     [ c_module_name imp +:+ " = PyImport_ImportModule(" +:+ dq +:+ imp
         +:+ dq +:+ ");";
       "if (" +:+ c_module_name imp +:+ " == NULL)";
       "    return NULL;" ]).

Lemma generate_imports_init_section_emits (imps emitted : list string) :
  generate_imports_init_section imps emitted
  = (emitted ++ (imps ≫= import_lines), Ok tt).
Proof.
  apply for_in_emits. intros imp e.
  unfold mbind, Emit_bind, Emitter_emit_line. by rewrite <-!app_assoc.
Qed.

(** C8: the declaration chosen for the init function is the canonical
    entry point [PyMODINIT_FUNC PyInit_<module>] for a module compiled
    alone and [PyObject *x_PyInit_<module>], the canonical entry point of
    no module, for modules compiled together.  [generate_module_def] does
    not get to declare it for a module with a function: the method table
    loop calls the string [fn.cname] and raises [TypeError] after the
    table's opening line.  For a module without functions the declaration
    is emitted, and the function then raises [AttributeError] on
    [module.literals], an attribute [ModuleIR] does not have. *)
Theorem generate_module_def_raises (modules : list (string * ModuleIR))
    (module_name : string) (module : ModuleIR) (emitted : list string) :
  (functions module ≠ [] →
     generate_module_def modules module_name module emitted
     = (emitted
        ++ [ "static PyMethodDef " +:+ private_name module_name
             +:+ "module_methods[] = {" ],
        Raise (TypeError "'str' object is not callable")))
  ∧ (functions module = [] →
     ∃ lines,
       generate_module_def modules module_name module emitted
       = (emitted ++ lines, Raise (AttributeError "literals"))
       ∧ lines !! 13 = Some (init_declaration modules module_name))
  ∧ (length modules = 1 →
       init_declaration modules module_name
       = "PyMODINIT_FUNC PyInit_" +:+ module_name +:+ "(void)")
  ∧ (2 ≤ length modules →
       init_declaration modules module_name
       = "PyObject *x_PyInit_" +:+ module_name +:+ "(void)"
       ∧ ∀ other,
           init_declaration modules module_name
           ≠ "PyMODINIT_FUNC PyInit_" +:+ other +:+ "(void)")%nat.
Proof.
  split_and!.
  - unfold generate_module_def, EmitModule.generate_module_def.
    by destruct (functions module).
  - intros Hfns.
    unfold generate_module_def, EmitModule.generate_module_def.
    rewrite Hfns.
    repeat (erewrite Emit_bind_ok;
      [|first [ apply generate_imports_init_section_emits
              | apply for_in_emits; intros; reflexivity
              | reflexivity ]]).
    erewrite Emit_bind_raise; [|reflexivity].
    rewrite <-!app_assoc. eexists. split; reflexivity.
  - unfold init_declaration. by intros ->.
  - intros Hlen. unfold init_declaration.
    rewrite bool_decide_false by lia. split; [done|].
    intros other. simpl. discriminate.
Qed.

End module_def_facts.

Lemma generate_module_def_raises_witness :
  generate_module_def (λ s, s) "CPyPy_" (λ s, (s, 0%Z))
    [("m", ModuleIR_init [] [] [mkFuncIR "f" None [] int_rprimitive] [])] "m"
    (ModuleIR_init [] [] [mkFuncIR "f" None [] int_rprimitive] []) []
  = (["static PyMethodDef mmodule_methods[] = {"],
     Raise (TypeError "'str' object is not callable")).
Proof.
  apply (proj1 (generate_module_def_raises (λ s, s) "CPyPy_" (λ s, (s, 0%Z))
    [("m", ModuleIR_init [] [] [mkFuncIR "f" None [] int_rprimitive] [])] "m"
    (ModuleIR_init [] [] [mkFuncIR "f" None [] int_rprimitive] []) [])).
  discriminate.
Defined.

Section toposort_facts.
Variable declarations : list (string * HeaderDeclaration).
Hypothesis Hkeys : NoDup declarations.*1.
Hypothesis Hclosed : deps_closed declarations.
Hypothesis Hacyclic : acyclic declarations.

Local Abbreviation dep := (depends_on declarations).
Local Abbreviation inv := (sort_inv declarations).

Lemma mark_all_lookup (l : list (string * HeaderDeclaration))
    (m : gmap string MarkedDeclaration) k :
  NoDup l.*1 →
  foldl (λ m kv, <[kv.1 := MarkedDeclaration_init kv.2 false]> m) m l !! k
  = match (list_to_map l : gmap string HeaderDeclaration) !! k with
    | Some d => Some {| declaration := d; mark := false |}
    | None => m !! k
    end.
Proof.
  revert m. induction l as [|[k0 d0] l IH]; intros m Hnd; simpl.
  { by rewrite lookup_empty. }
  apply NoDup_cons in Hnd as [Hk0 Hnd]. rewrite IH by done.
  destruct (decide (k0 = k)) as [->|Hne].
  - rewrite lookup_insert_eq.
    rewrite (proj1 (not_elem_of_list_to_map l k)) by done.
    by rewrite lookup_insert_eq.
  - rewrite !lookup_insert_ne by done. done.
Qed.

Lemma inv_initial :
  inv {| marked_declarations := mark_all declarations; result := [] |} [].
Proof.
  split; simpl; try done.
  - intros x d Hin. by apply elem_of_nil in Hin.
  - intros k. unfold mark_all. rewrite mark_all_lookup by done.
    rewrite lookup_empty. by destruct (list_to_map declarations !! k).
  - constructor.
Qed.

Lemma stack_bounded (stack : list string) :
  NoDup stack → (∀ a, a ∈ stack → a ∈ declarations.*1) →
  length stack ≤ length declarations.
Proof.
  intros Hnd Hin. rewrite <-(length_fmap fst declarations).
  apply submseteq_length. by apply NoDup_submseteq.
Qed.

(** The loop over the dependencies (and, at top level, over all names),
    given what one visit does. *)
Lemma for_each_visit (visit : string → SortState → Outcome SortState)
    (cs : list string) :
  (∀ c st sorted, c ∈ cs → inv st sorted →
     ∃ st' new, visit c st = Done st' ∧ inv st' (sorted ++ new)
       ∧ c ∈ (sorted ++ new).*1
       ∧ ∀ z, z ∈ new.*1 → rtc dep c z) →
  ∀ st sorted, inv st sorted →
    ∃ st' new, for_each visit cs st = Done st' ∧ inv st' (sorted ++ new)
      ∧ (∀ c, c ∈ cs → c ∈ (sorted ++ new).*1)
      ∧ ∀ z, z ∈ new.*1 → ∃ c, c ∈ cs ∧ rtc dep c z.
Proof.
  induction cs as [|c cs IH]; intros Hvisit st sorted Hinv; simpl.
  { exists st, []. rewrite app_nil_r. split_and!; [done..| |].
    - intros c Hc. by apply elem_of_nil in Hc.
    - intros z Hz. by apply elem_of_nil in Hz. }
  destruct (Hvisit c st sorted) as (st1 & new1 & -> & Hinv1 & Hc & Hnew1);
    [left|done|].
  destruct (IH (λ c' st sorted Hc', Hvisit c' st sorted
              (list_elem_of_further _ _ _ Hc')) st1 (sorted ++ new1) Hinv1)
    as (st2 & new2 & -> & Hinv2 & Hcs & Hnew2).
  exists st2, (new1 ++ new2). rewrite app_assoc. split_and!; [done..| |].
  - intros c' [->|Hc']%elem_of_cons; [|by apply Hcs].
    rewrite fmap_app. apply elem_of_app. by left.
  - intros z. rewrite fmap_app.
    intros [Hz|Hz]%elem_of_app.
    + exists c. split; [left|by apply Hnew1].
    + destruct (Hnew2 z Hz) as (c' & Hc' & Hrtc). exists c'.
      split; [by right|done].
Qed.

Lemma declared_lookup x :
  x ∈ declarations.*1 →
  ∃ d, (x, d) ∈ declarations
    ∧ (list_to_map declarations : gmap string HeaderDeclaration) !! x = Some d.
Proof.
  intros ([x' d] & -> & Hin)%list_elem_of_fmap. exists d.
  split; [done|]. by apply elem_of_list_to_map_1.
Qed.

(** Appending the visited declaration keeps the invariant. *)
Lemma inv_append st sorted x dx :
  inv st sorted → (x, dx) ∈ declarations → x ∉ sorted.*1 →
  (∀ y, y ∈ dependencies dx → y ∈ sorted.*1) →
  inv {| marked_declarations :=
           <[x := {| declaration := dx; mark := true |}]>
             (marked_declarations st);
         result := result st ++ [dx] |}
      (sorted ++ [(x, dx)]).
Proof.
  intros [Hres Hsorted Hmarks Hnd Horder] Hx Hfresh Hdeps. split; simpl.
  - by rewrite Hres, fmap_app.
  - intros x' d' [?|Hin]%elem_of_app; [by apply Hsorted|].
    apply list_elem_of_singleton in Hin. by simplify_eq.
  - intros k. rewrite fmap_app; simpl. destruct (decide (x = k)) as [<-|Hne].
    + rewrite lookup_insert_eq, (elem_of_list_to_map_1 _ _ _ Hkeys Hx); simpl.
      rewrite bool_decide_true; [done|]. apply elem_of_app. right. left.
    + rewrite lookup_insert_ne, Hmarks by done.
      destruct (list_to_map declarations !! k); simpl; [|done].
      do 2 f_equal. apply bool_decide_ext.
      rewrite elem_of_app, list_elem_of_singleton.
      split; [by left|]. by intros [?| ->].
  - rewrite fmap_app. apply NoDup_app. split_and!; [done| |apply NoDup_singleton].
    intros y Hy ->%list_elem_of_singleton. done.
  - intros j x' dx' y [Hj|[Hle Hj]]%lookup_app_Some Hy;
      [|apply list_lookup_singleton_Some in Hj as [Hj0 [= <- <-]]].
    + destruct (Horder j x' dx' y Hj Hy) as (i & dy & Hlt & Hi).
      exists i, dy. split; [done|]. by apply lookup_app_l_Some.
    + apply Hdeps in Hy. apply list_elem_of_fmap in Hy as ([y' dy] & -> & Hy).
      apply list_elem_of_lookup in Hy as [i Hi]. exists i, dy.
      split; [|by apply lookup_app_l_Some].
      apply lookup_lt_Some in Hi. lia.
Qed.

(** One visit, with [stack] the names whose visits are in progress. *)
Lemma visit_spec depth : ∀ x stack st sorted,
  x ∈ declarations.*1 →
  NoDup stack →
  (∀ a, a ∈ stack → a ∈ declarations.*1 ∧ tc dep a x) →
  length declarations < depth + length stack →
  inv st sorted →
  ∃ st' new,
    _toposort_visit depth x st = Done st' ∧ inv st' (sorted ++ new)
    ∧ x ∈ (sorted ++ new).*1
    ∧ ∀ z, z ∈ new.*1 → rtc dep x z.
Proof.
  induction depth as [|depth IH]; intros x stack st sorted Hx Hnd Hstack Hlen Hinv.
  { pose proof (stack_bounded stack Hnd (λ a Ha, proj1 (Hstack a Ha))). lia. }
  destruct (declared_lookup x Hx) as (dx & Hdx & Hlookup).
  simpl. rewrite (inv_marks _ _ _ Hinv), Hlookup. simpl.
  case_bool_decide as Hmarked.
  { exists st, []. rewrite app_nil_r. split_and!; [done..|].
    intros z Hz. by apply elem_of_nil in Hz. }
  assert (x ∉ stack) as Hxs.
  { intros [_ Hcycle]%Hstack. by apply (Hacyclic x). }
  destruct (for_each_visit (_toposort_visit depth) (dependencies dx))
    with (st := st) (sorted := sorted)
    as (st' & new & -> & Hinv' & Hdeps & Hnew); [|done|].
  { intros c st1 sorted1 Hc Hinv1.
    assert (dep x c) as Hxc by by exists dx.
    apply (IH c (x :: stack)); [by eapply Hclosed|by constructor| |simpl; lia|done].
    intros a [->|Ha]%elem_of_cons.
    - split; [done|by apply tc_once].
    - destruct (Hstack a Ha) as [? Hax]. split; [done|by eapply tc_r]. }
  assert (x ∉ (sorted ++ new).*1) as Hfresh.
  { rewrite fmap_app. intros [?|Hin]%elem_of_app; [done|].
    destruct (Hnew x Hin) as (c & Hc & Hcx). apply (Hacyclic x).
    eapply tc_rtc_r; [|done]. apply tc_once. by exists dx. }
  exists {| marked_declarations :=
              <[x := {| declaration := dx; mark := true |}]>
                (marked_declarations st');
            result := result st' ++ [dx] |}, (new ++ [(x, dx)]).
  rewrite app_assoc. split_and!.
  - done.
  - by apply inv_append.
  - rewrite fmap_app. apply elem_of_app. right. left.
  - intros z. rewrite fmap_app. intros [Hz|Hz]%elem_of_app.
    + destruct (Hnew z Hz) as (c & Hc & Hcz).
      eapply rtc_l; [|done]. by exists dx.
    + apply list_elem_of_singleton in Hz as ->. done.
Qed.

Lemma toposort_run depth :
  length declarations < depth →
  ∃ sorted,
    toposort_declarations depth declarations = Done sorted.*2
    ∧ sorted ≡ₚ declarations
    ∧ ∀ j x dx y,
        sorted !! j = Some (x, dx) → y ∈ dependencies dx →
        ∃ i dy, i < j ∧ sorted !! i = Some (y, dy).
Proof.
  intros Hdepth. unfold toposort_declarations.
  destruct (for_each_visit (_toposort_visit depth) declarations.*1)
    with (st := {| marked_declarations := mark_all declarations;
                   result := [] |}) (sorted := @nil (string * HeaderDeclaration))
    as (st' & sorted & -> & Hinv & Hall & _); [|apply inv_initial|].
  { intros c st1 sorted1 Hc Hinv1. apply (visit_spec depth c []); try done.
    - constructor.
    - intros a Ha. by apply elem_of_nil in Ha.
    - simpl. lia. }
  simpl in *. exists sorted. rewrite (inv_result _ _ _ Hinv).
  split_and!; [done| |by apply (inv_order _ _ _ Hinv)].
  apply NoDup_Permutation.
  - eapply NoDup_fmap_1, (inv_nodup _ _ _ Hinv).
  - by eapply NoDup_fmap_1.
  - intros [x d]. split; [by apply (inv_sorted _ _ _ Hinv)|].
    intros Hin.
    assert (x ∈ sorted.*1) as ([x' d'] & -> & Hin')%list_elem_of_fmap.
    { apply Hall. by apply (list_elem_of_fmap_2 fst) in Hin. }
    simpl. pose proof (inv_sorted _ _ _ Hinv _ _ Hin') as Hdecl.
    apply (elem_of_list_to_map_1 _ _ _ Hkeys) in Hdecl, Hin. simpl in *.
    by simplify_eq.
Qed.

End toposort_facts.

(** A larger recursion budget does not change a run that completes. *)
Lemma for_each_mono {A S : Type} (f g : A → S → Outcome S) :
  (∀ x s s', f x s = Done s' → g x s = Done s') →
  ∀ l s s', for_each f l s = Done s' → for_each g l s = Done s'.
Proof.
  intros Hfg l. induction l as [|x l IH]; intros s s'; simpl; [done|].
  destruct (f x s) as [s1| |] eqn:Hf; [|done..].
  rewrite (Hfg _ _ _ Hf). apply IH.
Qed.

Lemma _toposort_visit_mono depth : ∀ depth' name st st',
  depth ≤ depth' →
  _toposort_visit depth name st = Done st' →
  _toposort_visit depth' name st = Done st'.
Proof.
  induction depth as [|depth IH]; intros [|depth'] name st st' Hle; simpl;
    [done|done|lia|].
  destruct (marked_declarations st !! name) as [decl|]; [|done].
  destruct (mark decl); [done|].
  destruct (for_each (_toposort_visit depth) _ st) as [st1| |] eqn:Hloop;
    [|done..].
  erewrite for_each_mono; [done| |exact Hloop].
  intros x s s'. apply IH. lia.
Qed.

(** C1: for a context whose declarations form an acyclic dependency graph
    (names distinct, as in a dictionary, and every dependency declared),
    [toposort_declarations] returns, with any recursion budget above the
    number of declarations, every declaration exactly once, each one after
    all the declarations it names as dependencies. *)
Theorem toposort_declarations_sorted
    (declarations : list (string * HeaderDeclaration)) :
  NoDup declarations.*1 →
  deps_closed declarations →
  acyclic declarations →
  ∃ sorted : list (string * HeaderDeclaration),
    (∀ depth, length declarations < depth →
       toposort_declarations depth declarations = Done sorted.*2)
    ∧ sorted ≡ₚ declarations
    ∧ ∀ j x dx y,
        sorted !! j = Some (x, dx) → y ∈ dependencies dx →
        ∃ i dy, i < j ∧ sorted !! i = Some (y, dy).
Proof.
  intros Hkeys Hclosed Hacyclic.
  destruct (toposort_run declarations Hkeys Hclosed Hacyclic
    (S (length declarations))) as (sorted & Hrun & Hperm & Horder); [lia|].
  exists sorted. split_and!; [|done..].
  intros depth Hdepth. revert Hrun. unfold toposort_declarations.
  destruct (for_each (_toposort_visit (S (length declarations))) _ _)
    as [st| |] eqn:Hloop; [|done..].
  intros [= <-]. erewrite for_each_mono; [done| |exact Hloop].
  intros x s s'. apply _toposort_visit_mono. lia.
Qed.

(** A graph whose edges all decrease a rank has no cycle. *)
Lemma acyclic_of_rank (declarations : list (string * HeaderDeclaration))
    (rank : string → nat) :
  (∀ x y, depends_on declarations x y → rank y < rank x) →
  acyclic declarations.
Proof.
  intros Hrank x Hcycle.
  assert (∀ a b, tc (depends_on declarations) a b → rank b < rank a) as Htc.
  { induction 1 as [a b Hab|a b c Hab _ IH].
    - by apply Hrank.
    - apply Hrank in Hab. lia. }
  apply Htc in Hcycle. lia.
Qed.

Lemma diamond_edges x y :
  depends_on diamond x y →
  (x = "X" ∧ (y = "Y" ∨ y = "Z")) ∨ ((x = "Y" ∨ x = "Z") ∧ y = "W").
Proof.
  intros (d & Hin & Hy). unfold diamond in Hin.
  repeat (apply elem_of_cons in Hin as [Hin|Hin]; [simplify_eq/=|]);
    [..|by apply elem_of_nil in Hin];
    repeat (apply elem_of_cons in Hy as [->|Hy]; [tauto|]);
    by apply elem_of_nil in Hy.
Qed.

Lemma toposort_declarations_sorted_witness :
  toposort_declarations 5 diamond
  = Done [ mkHeaderDeclaration [] ["struct W;"];
           mkHeaderDeclaration ["W"] ["struct Y;"];
           mkHeaderDeclaration ["W"] ["struct Z;"];
           mkHeaderDeclaration ["Y"; "Z"] ["struct X;"] ]
  ∧ ∃ sorted : list (string * HeaderDeclaration),
      (∀ depth, length diamond < depth →
         toposort_declarations depth diamond = Done sorted.*2)
      ∧ sorted ≡ₚ diamond
      ∧ ∀ j x dx y,
          sorted !! j = Some (x, dx) → y ∈ dependencies dx →
          ∃ i dy, i < j ∧ sorted !! i = Some (y, dy).
Proof.
  split; [vm_compute; reflexivity|].
  apply (toposort_declarations_sorted diamond).
  - compute_done.
  - intros x y [[_ [->| ->]]|[_ ->]]%diamond_edges; compute_done.
  - apply (acyclic_of_rank diamond diamond_rank).
    intros x y [[-> [->| ->]]|[[->| ->] ->]]%diamond_edges; compute_done.
Defined.

(** * Further properties *)

(** ** sametype.py: the comparisons as relations *)

Section same_type_relation.

Lemma is_same_type_items_equivalence (ts : list RType) :
  Forall (λ t, is_same_type t t = true) ts
  ∧ Forall (sym_at is_same_type) ts
  ∧ Forall (trans_at is_same_type) ts.
Proof.
  split_and!; apply Forall_forall; intros t _;
    by destruct (is_same_type_equivalence t) as (? & ? & ?).
Qed.

(** X1: [is_same_type] is transitive, so with reflexivity and symmetry it
    is an equivalence relation on runtime types. *)
Theorem is_same_type_transitive (a b c : RType) :
  is_same_type a b = true → is_same_type b c = true →
  is_same_type a c = true.
Proof. destruct (is_same_type_equivalence a) as (_ & _ & Htrans). apply Htrans. Qed.

Lemma is_same_type_transitive_witness :
  is_same_type (RUnion [int_rprimitive; ROptional str_rprimitive])
    (RUnion [ROptional str_rprimitive; int_rprimitive]) = true.
Proof.
  apply (is_same_type_transitive _
    (RUnion [ROptional str_rprimitive; int_rprimitive]) _); reflexivity.
Defined.

(** X2: two union types are the same type exactly when the items of the
    right one can be rearranged so that they are pairwise the same as the
    items of the left one: the order of the items does not matter, their
    multiplicity does. *)
Theorem is_same_type_union_rearranged (xs ys : list RType) :
  (is_same_type (RUnion xs) (RUnion ys) = true ↔
     ∃ ys', ys' ≡ₚ ys ∧ Forall2 (λ x y, is_same_type x y = true) xs ys')
  ∧ (xs ≡ₚ ys → is_same_type (RUnion xs) (RUnion ys) = true)
  ∧ (is_same_type (RUnion xs) (RUnion ys) = true → length xs = length ys).
Proof.
  destruct (is_same_type_items_equivalence xs) as (Hrefl & Hsym & Htrans).
  assert (∀ ys', ys' ≡ₚ ys →
            Forall2 (λ x y, is_same_type x y = true) xs ys' →
            is_same_type (RUnion xs) (RUnion ys) = true) as Hcomplete.
  { intros ys' Hperm Hall. rewrite is_same_type_union.
    eapply match_items_complete; [by apply rectangle_left|done..]. }
  split_and!.
  - split; [apply match_items_sound|]. intros (ys' & ? & ?). by eapply Hcomplete.
  - intros Hperm. apply (Hcomplete xs); [done|].
    apply Forall2_same_length_lookup_2; [done|].
    intros i x y Hx Hy. simplify_eq.
    by eapply (proj1 (Forall_lookup _ _) Hrefl).
  - intros (ys' & Hperm & Hall)%match_items_sound.
    by rewrite (Forall2_length _ _ _ Hall), Hperm.
Qed.

Lemma is_same_type_union_rearranged_witness :
  is_same_type (RUnion [int_rprimitive; str_rprimitive; int_rprimitive])
    (RUnion [int_rprimitive; int_rprimitive; str_rprimitive]) = true.
Proof.
  apply (proj1 (proj2 (is_same_type_union_rearranged
    [int_rprimitive; str_rprimitive; int_rprimitive]
    [int_rprimitive; int_rprimitive; str_rprimitive]))).
  apply perm_skip, perm_swap.
Defined.

Lemma same_arg_equivalence (t : RuntimeArg) :
  same_arg t t = true ∧ sym_at same_arg t ∧ trans_at same_arg t.
Proof.
  destruct (is_same_type_equivalence (arg_type t)) as (Hrefl & Hsym & Htrans).
  unfold same_arg. split_and!.
  - by rewrite Hrefl, bool_decide_true.
  - intros t'. rewrite (Hsym (arg_type t')). f_equal.
    apply bool_decide_ext. split; congruence.
  - intros t1 t2. rewrite !andb_true_iff, !bool_decide_eq_true.
    intros [??] [??]. split; [by eapply Htrans|congruence].
Qed.

Lemma same_arg_items_equivalence (l : list RuntimeArg) :
  Forall (λ t, same_arg t t = true) l
  ∧ Forall (sym_at same_arg) l
  ∧ Forall (trans_at same_arg) l.
Proof.
  split_and!; apply Forall_forall; intros t _;
    by destruct (same_arg_equivalence t) as (? & ? & ?).
Qed.

Lemma signature_drop_equivalence (k : nat) (la lb lc : list RuntimeArg)
    (ra rb rc : RType) :
  (bool_decide (length la = length la) && is_same_type ra ra
   && all_zip same_arg (drop k la) (drop k la) = true)
  ∧ (bool_decide (length la = length lb) && is_same_type ra rb
     && all_zip same_arg (drop k la) (drop k lb)
     = bool_decide (length lb = length la) && is_same_type rb ra
       && all_zip same_arg (drop k lb) (drop k la))
  ∧ (bool_decide (length la = length lb) && is_same_type ra rb
     && all_zip same_arg (drop k la) (drop k lb) = true →
     bool_decide (length lb = length lc) && is_same_type rb rc
     && all_zip same_arg (drop k lb) (drop k lc) = true →
     bool_decide (length la = length lc) && is_same_type ra rc
     && all_zip same_arg (drop k la) (drop k lc) = true).
Proof.
  destruct (is_same_type_equivalence ra) as (Hrefl & Hsym & Htrans).
  destruct (same_arg_items_equivalence (drop k la))
    as (Hlrefl & Hlsym & Hltrans).
  split_and!.
  - by rewrite bool_decide_true, Hrefl, all_zip_refl.
  - rewrite (Hsym rb), (all_zip_sym _ (drop k la) (drop k lb)) by done.
    do 2 f_equal. apply bool_decide_ext. split; congruence.
  - rewrite !andb_true_iff, !bool_decide_eq_true.
    intros [[Hab ?] ?] [[Hbc ?] ?]. split_and!.
    + congruence.
    + by eapply Htrans.
    + eapply all_zip_trans; [done| |done..]. by rewrite !length_drop, Hab.
Qed.

(** X3: both signature comparisons are equivalence relations: reflexive,
    symmetric and transitive. *)
Theorem signature_comparisons_equivalence (a b c : FuncSignature) :
  (is_same_signature a a = true
   ∧ is_same_signature a b = is_same_signature b a
   ∧ (is_same_signature a b = true → is_same_signature b c = true →
      is_same_signature a c = true))
  ∧ (is_same_method_signature a a = true
     ∧ is_same_method_signature a b = is_same_method_signature b a
     ∧ (is_same_method_signature a b = true →
        is_same_method_signature b c = true →
        is_same_method_signature a c = true)).
Proof.
  split.
  - apply (signature_drop_equivalence 0).
  - apply (signature_drop_equivalence 1).
Qed.

Lemma signature_comparisons_equivalence_witness :
  is_same_signature
    (mkFuncSignature [mkRuntimeArg "x" int_rprimitive] none_rprimitive)
    (mkFuncSignature [mkRuntimeArg "x" int_rprimitive] none_rprimitive)
  = true.
Proof.
  apply (proj2 (proj2 (proj1 (signature_comparisons_equivalence
    (mkFuncSignature [mkRuntimeArg "x" int_rprimitive] none_rprimitive)
    (mkFuncSignature [mkRuntimeArg "x" int_rprimitive] none_rprimitive)
    (mkFuncSignature [mkRuntimeArg "x" int_rprimitive] none_rprimitive)))));
    reflexivity.
Defined.

(** X4: the method comparison of two signatures that both have a receiver
    is the plain comparison of the signatures with the receivers removed,
    whatever the receivers' names and types; and signatures that pass the
    plain comparison pass the method comparison. *)
Theorem method_signature_drops_receiver (a b : FuncSignature) :
  (∀ ra rb la lb ta tb,
     is_same_method_signature (mkFuncSignature (ra :: la) ta)
       (mkFuncSignature (rb :: lb) tb)
     = is_same_signature (mkFuncSignature la ta) (mkFuncSignature lb tb))
  ∧ (is_same_signature a b = true → is_same_method_signature a b = true).
Proof.
  split.
  - intros ra rb la lb ta tb.
    unfold is_same_method_signature, is_same_signature; simpl.
    do 2 f_equal. apply bool_decide_ext. split; congruence.
  - unfold is_same_method_signature, is_same_signature.
    rewrite !andb_true_iff, !bool_decide_eq_true.
    intros [[Hlen ?] Hall]. split_and!; try done.
    apply all_zip_Forall2 in Hall; [|done].
    apply all_zip_Forall2; [by rewrite !length_drop, Hlen|].
    by apply Forall2_drop.
Qed.

Lemma method_signature_drops_receiver_witness :
  is_same_method_signature
    (mkFuncSignature [mkRuntimeArg "self" object_rprimitive;
                      mkRuntimeArg "x" int_rprimitive] none_rprimitive)
    (mkFuncSignature [mkRuntimeArg "self" object_rprimitive;
                      mkRuntimeArg "x" int_rprimitive] none_rprimitive)
  = true.
Proof.
  apply (proj2 (method_signature_drops_receiver
    (mkFuncSignature [mkRuntimeArg "self" object_rprimitive;
                      mkRuntimeArg "x" int_rprimitive] none_rprimitive)
    (mkFuncSignature [mkRuntimeArg "self" object_rprimitive;
                      mkRuntimeArg "x" int_rprimitive] none_rprimitive))).
  reflexivity.
Defined.

End same_type_relation.

(** ** ops.py: slots, sources, environments, names *)

Section slot_layout.

Lemma head_filter_list_find {A} (P : A → Prop) `{∀ x, Decision (P x)}
    (l : list A) :
  head (filter P l) = snd <$> list_find P l.
Proof.
  induction l as [|x l IH]; [done|]. rewrite filter_cons. simpl.
  case_decide; [done|]. rewrite IH. by destruct (list_find P l) as [[]|].
Qed.

Lemma getter_index_Some class_ir name k :
  getter_index class_ir name = Some k ↔
  ∃ i rtype, k = 2 * i
    ∧ class_attributes class_ir !! i = Some (name, rtype)
    ∧ ∀ j p, class_attributes class_ir !! j = Some p → j < i → p.1 ≠ name.
Proof.
  unfold getter_index.
  destruct (list_find _ _) as [[i [attr rtype]]|] eqn:Hfind.
  - apply list_find_Some in Hfind as (Hi & Heq & Hfirst). simpl in Heq. subst.
    split.
    + intros [= <-]. exists i, rtype. split_and!; [lia|done..].
    + intros (i' & rtype' & -> & Hi' & Hfirst'). f_equal.
      destruct (Nat.lt_trichotomy i i') as [Hlt|[->|Hlt]]; [|lia|].
      * by destruct (Hfirst' _ _ Hi Hlt).
      * by destruct (Hfirst _ _ Hi' Hlt).
  - split; [done|]. intros (i & rtype & _ & Hi & _).
    apply list_find_None in Hfind.
    by destruct (proj1 (Forall_lookup _ _) Hfind i _ Hi).
Qed.

Lemma method_index_Some class_ir name k :
  method_index class_ir name = Some k ↔
  ∃ j fn, k = 2 * length (class_attributes class_ir) + j
    ∧ class_methods class_ir !! j = Some fn ∧ fn_name fn = name
    ∧ ∀ j' fn', class_methods class_ir !! j' = Some fn' → j' < j →
        fn_name fn' ≠ name.
Proof.
  unfold method_index.
  destruct (list_find _ _) as [[j fn]|] eqn:Hfind.
  - apply list_find_Some in Hfind as (Hj & Heq & Hfirst). split.
    + intros [= <-]. exists j, fn. split_and!; [lia|done..].
    + intros (j' & fn' & -> & Hj' & Heq' & Hfirst'). f_equal.
      destruct (Nat.lt_trichotomy j j') as [Hlt|[->|Hlt]]; [|lia|].
      * by destruct (Hfirst' _ _ Hj Hlt).
      * by destruct (Hfirst _ _ Hj' Hlt).
  - split; [done|]. intros (j & fn & _ & Hj & Heq & _).
    apply list_find_None in Hfind.
    by destruct (proj1 (Forall_lookup _ _) Hfind j _ Hj).
Qed.

Lemma setter_index_Some class_ir name k :
  setter_index class_ir name = Some k ↔
  ∃ g, getter_index class_ir name = Some g ∧ k = g + 1.
Proof.
  unfold setter_index. destruct (getter_index class_ir name) as [g|]; simpl.
  - split; [intros [= <-]; by eexists|]. by intros (? & [= <-] & ->).
  - split; [done|]. by intros (? & [=] & _).
Qed.

(** X5: the slots of a class never collide and stay in range, whatever
    attributes and methods the class has.  A getter slot is even and below
    twice the number of attributes, and the setter slot of the same name
    is the next one; a setter slot is odd, in the same range, and follows
    the getter slot of its name; a method slot is at least twice the
    number of attributes and below that plus the number of methods.  Two
    names with the same getter slot, the same setter slot or the same
    method slot are one name, and no slot is shared between a getter, a
    setter and a method. *)
Theorem slot_layout_disjoint (class_ir : ClassIR) :
  (∀ a g, getter_index class_ir a = Some g →
     Nat.Even g ∧ g < 2 * length (class_attributes class_ir)
     ∧ setter_index class_ir a = Some (g + 1))
  ∧ (∀ a s, setter_index class_ir a = Some s →
       Nat.Odd s ∧ s < 2 * length (class_attributes class_ir)
       ∧ getter_index class_ir a = Some (s - 1))
  ∧ (∀ m k, method_index class_ir m = Some k →
       2 * length (class_attributes class_ir) ≤ k
       ∧ k < 2 * length (class_attributes class_ir)
             + length (class_methods class_ir))
  ∧ (∀ a a' g, getter_index class_ir a = Some g →
       getter_index class_ir a' = Some g → a = a')
  ∧ (∀ a a' s, setter_index class_ir a = Some s →
       setter_index class_ir a' = Some s → a = a')
  ∧ (∀ m m' k, method_index class_ir m = Some k →
       method_index class_ir m' = Some k → m = m')
  ∧ (∀ a a' g, getter_index class_ir a = Some g →
       setter_index class_ir a' ≠ Some g)
  ∧ (∀ a m k, method_index class_ir m = Some k →
       getter_index class_ir a ≠ Some k ∧ setter_index class_ir a ≠ Some k).
Proof.
  assert (Hget : ∀ a g, getter_index class_ir a = Some g →
            ∃ i, g = 2 * i ∧ i < length (class_attributes class_ir)
              ∧ (class_attributes class_ir).*1 !! i = Some a).
  { intros a g (i & t & -> & Hi & _)%getter_index_Some. exists i.
    split_and!; [done|by eapply lookup_lt_Some|].
    by rewrite list_lookup_fmap, Hi. }
  assert (Hmeth : ∀ m k, method_index class_ir m = Some k →
            ∃ j, k = 2 * length (class_attributes class_ir) + j
              ∧ j < length (class_methods class_ir)
              ∧ fn_name <$> class_methods class_ir !! j = Some m).
  { intros m k (j & fn & -> & Hj & <- & _)%method_index_Some. exists j.
    split_and!; [done|by eapply lookup_lt_Some|by rewrite Hj]. }
  split_and!.
  - intros a g Hg. destruct (Hget _ _ Hg) as (i & -> & Hi & _).
    split_and!; [by exists i|lia|].
    apply setter_index_Some. by eexists.
  - intros a s (g & Hg & ->)%setter_index_Some.
    destruct (Hget _ _ Hg) as (i & -> & Hi & _).
    split_and!; [exists i; lia|lia|].
    by replace (2 * i + 1 - 1) with (2 * i) by lia.
  - intros m k Hk. destruct (Hmeth _ _ Hk) as (j & -> & Hj & _). lia.
  - intros a a' g Hg Hg'.
    destruct (Hget _ _ Hg) as (i & -> & _ & Hi).
    destruct (Hget _ _ Hg') as (i' & Heq & _ & Hi').
    assert (i' = i) as -> by lia. congruence.
  - intros a a' s (g & Hg & ->)%setter_index_Some
      (g' & Hg' & Heq)%setter_index_Some.
    destruct (Hget _ _ Hg) as (i & -> & _ & Hi).
    destruct (Hget _ _ Hg') as (i' & -> & _ & Hi').
    assert (i' = i) as -> by lia. congruence.
  - intros m m' k Hk Hk'.
    destruct (Hmeth _ _ Hk) as (j & -> & _ & Hj).
    destruct (Hmeth _ _ Hk') as (j' & Heq & _ & Hj').
    assert (j' = j) as -> by lia. congruence.
  - intros a a' g Hg (g' & Hg' & ->)%setter_index_Some.
    destruct (Hget _ _ Hg) as (i & Heq & _).
    destruct (Hget _ _ Hg') as (i' & -> & _). lia.
  - intros a m k Hk. destruct (Hmeth _ _ Hk) as (j & -> & _).
    split.
    + intros Hg. destruct (Hget _ _ Hg) as (i & ? & ? & _). lia.
    + intros (g & Hg & ?)%setter_index_Some.
      destruct (Hget _ _ Hg) as (i & ? & ? & _). lia.
Qed.

(** A class with attributes and no method, as [ClassIR.__init__] builds
    it: the setter slot follows from the getter slot alone. *)
Lemma slot_layout_disjoint_witness :
  Nat.Even 2 ∧ 2 < 2 * 2 ∧
  setter_index (mkClassIR "P" [("x", int_rprimitive); ("y", bool_rprimitive)] [])
    "y" = Some (2 + 1).
Proof.
  exact (proj1 (slot_layout_disjoint
    (mkClassIR "P" [("x", int_rprimitive); ("y", bool_rprimitive)] []))
    "y" 2 eq_refl).
Defined.

Lemma list_find_fst_None {B} (l : list (string * B)) name :
  list_find (λ p, p.1 = name) l = None ↔ name ∉ l.*1.
Proof.
  rewrite list_find_None, Forall_forall, list_elem_of_fmap. split.
  - intros Hall ([a t] & -> & Hin). by apply (Hall _ Hin).
  - intros Hnot [a t] Hin <-. apply Hnot. by exists (a, t).
Qed.

Lemma attribute_lookups_agree (class_ir : ClassIR) (name : string) :
  (getter_index class_ir name = None ↔ name ∉ (class_attributes class_ir).*1)
  ∧ (setter_index class_ir name = None ↔ getter_index class_ir name = None)
  ∧ (attr_type class_ir name = None ↔ getter_index class_ir name = None)
  ∧ (∀ rtype, attr_type class_ir name = Some rtype →
       ∃ i, getter_index class_ir name = Some (2 * i)
         ∧ class_attributes class_ir !! i = Some (name, rtype)).
Proof.
  rewrite <-list_find_fst_None.
  unfold setter_index, attr_type, getter_index.
  destruct (list_find (λ p, p.1 = name) _) as [[i [attr rtype]]|] eqn:Hattr;
    simpl; [|done].
  apply list_find_Some in Hattr as (Hi & Heq & _). simpl in Heq.
  split_and!; try done.
  intros ? [= <-]. exists i. split; [f_equal; lia|by rewrite <-Heq].
Qed.

Lemma method_lookups_agree (class_ir : ClassIR) (name : string) :
  (method_index class_ir name = None ↔ get_method class_ir name = None)
  ∧ (∀ fn, get_method class_ir name = Some fn →
       fn_name fn = name
       ∧ ∃ j, method_index class_ir name
              = Some (2 * length (class_attributes class_ir) + j)
         ∧ class_methods class_ir !! j = Some fn).
Proof.
  unfold get_method, method_index. rewrite head_filter_list_find.
  destruct (list_find (λ fn, fn_name fn = name) _) as [[j fn]|] eqn:Hmeth;
    simpl; [|done].
  apply list_find_Some in Hmeth as (Hj & Hname & _).
  split; [done|]. intros ? [= <-]. split; [done|].
  exists j. split; [f_equal; lia|done].
Qed.

(** X6: the lookups of a class agree with one another and fail together:
    [getter_index], [setter_index] and [attr_type] fail exactly for a name
    that is no attribute, and the type [attr_type] returns is the one
    stored at the getter slot's position; [method_index] fails exactly when
    [get_method] finds nothing, and the method [get_method] returns is the
    one at the method slot's position. *)
Theorem slot_lookups_agree (class_ir : ClassIR) (name : string) :
  (getter_index class_ir name = None ↔ name ∉ (class_attributes class_ir).*1)
  ∧ (setter_index class_ir name = None ↔ getter_index class_ir name = None)
  ∧ (attr_type class_ir name = None ↔ getter_index class_ir name = None)
  ∧ (∀ rtype, attr_type class_ir name = Some rtype →
       ∃ i, getter_index class_ir name = Some (2 * i)
         ∧ class_attributes class_ir !! i = Some (name, rtype))
  ∧ (method_index class_ir name = None ↔ get_method class_ir name = None)
  ∧ (∀ fn, get_method class_ir name = Some fn →
       fn_name fn = name
       ∧ ∃ j, method_index class_ir name
              = Some (2 * length (class_attributes class_ir) + j)
         ∧ class_methods class_ir !! j = Some fn).
Proof.
  destruct (attribute_lookups_agree class_ir name) as (? & ? & ? & ?).
  destruct (method_lookups_agree class_ir name) as (? & ?).
  by split_and!.
Qed.

Lemma slot_lookups_agree_witness :
  getter_index scenario_class "zz" = None
  ∧ ∃ i, getter_index scenario_class "b" = Some (2 * i)
      ∧ class_attributes scenario_class !! i = Some ("b", str_rprimitive).
Proof.
  split.
  - apply (proj1 (slot_lookups_agree scenario_class "zz")). compute_done.
  - exact (proj1 (proj2 (proj2 (proj2 (slot_lookups_agree scenario_class "b"))))
      str_rprimitive eq_refl).
Defined.

End slot_layout.

Section unique_sources_facts.

Local Abbreviation step :=
  (λ (result : list Register) (reg : Register),
     if bool_decide (reg ∉ result) then result ++ [reg] else result).

Lemma unique_sources_acc (l : list Register) : ∀ acc,
  NoDup acc →
  ∃ k, foldl step acc l = acc ++ k ∧ NoDup (acc ++ k) ∧ sublist k l
    ∧ ∀ x, x ∈ acc ++ k ↔ x ∈ acc ∨ x ∈ l.
Proof.
  induction l as [|x l IH]; intros acc Hnd; simpl.
  { exists []. rewrite app_nil_r. split_and!; [done..|].
    intros y. rewrite elem_of_nil. tauto. }
  case_bool_decide as Hx.
  - destruct (IH (acc ++ [x])) as (k & -> & Hnd' & Hsub & Hin).
    { apply NoDup_app. split_and!; [done| |apply NoDup_singleton].
      intros y Hy ->%list_elem_of_singleton. done. }
    exists (x :: k). rewrite <-!app_assoc in *. simpl in *.
    split_and!; [done..|by apply sublist_skip|].
    intros y. rewrite Hin, elem_of_app, list_elem_of_singleton, elem_of_cons.
    tauto.
  - destruct (IH acc Hnd) as (k & -> & Hnd' & Hsub & Hin).
    exists k. split_and!; [done..|by apply sublist_cons|].
    intros y. rewrite Hin, elem_of_cons. split; [tauto|].
    intros [?|[->|?]]; [tauto| |tauto]. left.
    by destruct (decide (x ∈ acc)).
Qed.

Lemma unique_sources_acc_NoDup (l : list Register) : ∀ acc,
  NoDup (acc ++ l) → foldl step acc l = acc ++ l.
Proof.
  induction l as [|x l IH]; intros acc Hnd; simpl; [by rewrite app_nil_r|].
  rewrite bool_decide_true.
  - rewrite IH; rewrite <-app_assoc; done.
  - apply NoDup_app in Hnd as (_ & Hdisj & _). intros Hx.
    apply (Hdisj x Hx). left.
Qed.

Lemma unique_sources_snoc (l : list Register) (reg : Register) :
  unique_sources (l ++ [reg])
  = if bool_decide (reg ∉ unique_sources l) then unique_sources l ++ [reg]
    else unique_sources l.
Proof. unfold unique_sources. by rewrite foldl_app. Qed.

Lemma unique_sources_elem_of (l : list Register) (r : Register) :
  r ∈ unique_sources l ↔ r ∈ l.
Proof.
  unfold unique_sources.
  destruct (unique_sources_acc l [] (NoDup_nil_2)) as (k & -> & _ & _ & Hin).
  rewrite Hin, elem_of_nil. tauto.
Qed.

(** From an accumulator [acc], the loop appends what it would collect
    from scratch, less what [acc] holds already. *)
Lemma unique_sources_from (l : list Register) : ∀ acc,
  foldl step acc l = acc ++ filter (λ r, r ∉ acc) (unique_sources l).
Proof.
  induction l as [|z l IH] using rev_ind; intros acc.
  { by rewrite app_nil_r. }
  rewrite foldl_app, unique_sources_snoc. simpl. rewrite IH.
  destruct (decide (z ∈ unique_sources l)) as [Hz|Hz].
  - rewrite (bool_decide_false (z ∉ unique_sources l)) by tauto.
    rewrite bool_decide_false; [done|]. intros Hnot. apply Hnot.
    rewrite elem_of_app, list_elem_of_filter.
    destruct (decide (z ∈ acc)); tauto.
  - rewrite (bool_decide_true (z ∉ unique_sources l)) by done.
    rewrite filter_app, filter_cons, filter_nil.
    destruct (decide (z ∈ acc)) as [Hacc|Hacc].
    + rewrite bool_decide_false.
      * rewrite decide_False by tauto. by rewrite app_nil_r.
      * rewrite elem_of_app. tauto.
    + rewrite bool_decide_true.
      * rewrite decide_True by done. by rewrite app_assoc.
      * rewrite elem_of_app, list_elem_of_filter. tauto.
Qed.

Lemma unique_sources_first (l : list Register) :
  ∀ i j r1 r2,
    unique_sources l !! i = Some r1 → unique_sources l !! j = Some r2 →
    i < j →
    ∃ p, l !! p = Some r1 ∧ ∀ q, l !! q = Some r2 → p < q.
Proof.
  induction l as [|z l IH] using rev_ind; intros i j r1 r2; [done|].
  rewrite unique_sources_snoc.
  assert (Hold : ∀ i j, unique_sources l !! i = Some r1 →
            unique_sources l !! j = Some r2 → i < j →
            ∃ p, (l ++ [z]) !! p = Some r1
              ∧ ∀ q, (l ++ [z]) !! q = Some r2 → p < q).
  { intros i' j' Hi Hj Hlt. destruct (IH _ _ _ _ Hi Hj Hlt) as (p & Hp & Hq).
    exists p. split; [by apply lookup_app_l_Some|].
    intros q [Hq'|[Hlen _]]%lookup_app_Some; [by apply Hq|].
    apply lookup_lt_Some in Hp. lia. }
  case_bool_decide as Hz; [|by apply Hold].
  intros Hi Hj Hlt.
  apply lookup_app_Some in Hj as [Hj|[Hlen Hj]].
  { apply lookup_lt_Some in Hj as Hjlt.
    rewrite lookup_app_l in Hi by lia. by eapply Hold. }
  apply list_lookup_singleton_Some in Hj as [Hj0 ->].
  apply lookup_app_Some in Hi as [Hi|[? _]]; [|lia].
  apply list_elem_of_lookup_2 in Hi.
  apply (proj1 (unique_sources_elem_of _ _)) in Hi.
  apply list_elem_of_lookup_1 in Hi as [p Hp]. exists p.
  split; [by apply lookup_app_l_Some|].
  intros q [Hq|[Hq _]]%lookup_app_Some.
  - destruct Hz. by eapply unique_sources_elem_of, list_elem_of_lookup_2.
  - apply lookup_lt_Some in Hp. lia.
Qed.

(** X7: [unique_sources] lists every source register exactly once, in the
    order of first occurrence.  The result has no duplicates, has the same
    members as the sources and is a subsequence of them; of two registers
    of the result, the earlier one occurs in the sources before every
    occurrence of the later one; a register put in front of the sources
    comes first in the result and is dropped from the rest of it; a
    duplicate-free list is left as it is, and the result is left as it is
    when the function is applied again. *)
Theorem unique_sources_spec (sources : list Register) :
  NoDup (unique_sources sources)
  ∧ (∀ r, r ∈ unique_sources sources ↔ r ∈ sources)
  ∧ sublist (unique_sources sources) sources
  ∧ (∀ i j r1 r2,
       unique_sources sources !! i = Some r1 →
       unique_sources sources !! j = Some r2 → i < j →
       ∃ p, sources !! p = Some r1 ∧ ∀ q, sources !! q = Some r2 → p < q)
  ∧ (∀ reg, unique_sources (reg :: sources)
            = reg :: filter (λ r, r ≠ reg) (unique_sources sources))
  ∧ (NoDup sources → unique_sources sources = sources)
  ∧ unique_sources (unique_sources sources) = unique_sources sources.
Proof.
  split_and!.
  - unfold unique_sources.
    by destruct (unique_sources_acc sources [] (NoDup_nil_2))
      as (k & -> & Hnd & _).
  - apply unique_sources_elem_of.
  - unfold unique_sources.
    by destruct (unique_sources_acc sources [] (NoDup_nil_2))
      as (k & -> & _ & Hsub & _).
  - apply unique_sources_first.
  - intros reg. unfold unique_sources at 1. simpl.
    rewrite unique_sources_from. simpl. f_equal.
    apply list_filter_iff. intros r.
    rewrite list_elem_of_singleton. tauto.
  - intros Hnd. by apply (unique_sources_acc_NoDup sources []).
  - apply (unique_sources_acc_NoDup _ []). unfold unique_sources.
    by destruct (unique_sources_acc sources [] (NoDup_nil_2))
      as (k & -> & Hnd & _).
Qed.

(** A register read twice is listed where it is read first. *)
Lemma unique_sources_spec_witness :
  unique_sources [CRegister 0; CRegister 1; CRegister 0]
  = [CRegister 0; CRegister 1].
Proof.
  rewrite (proj1 (proj2 (proj2 (proj2 (proj2 (unique_sources_spec
    [CRegister 1; CRegister 0]))))) (CRegister 0)).
  vm_compute. reflexivity.
Defined.

End unique_sources_facts.

Section environment_invariant.

Lemma env_ok_init : env_ok Environment_init.
Proof.
  split; simpl.
  - intros r. by rewrite !lookup_empty.
  - intros r. by rewrite !lookup_empty.
  - intros r i. by rewrite lookup_empty.
  - intros r r' i. by rewrite lookup_empty.
  - intros i. rewrite map_size_empty. lia.
  - intros n. rewrite lookup_empty. by intros [].
  - intros v r. by rewrite lookup_empty.
Qed.

Lemma env_ok_fresh (self : Environment) :
  env_ok self → names self !! CRegister (Z.of_nat (size (names self))) = None.
Proof.
  intros Hok. apply eq_None_not_Some. intros Hsome.
  apply (ok_cregister _ Hok) in Hsome. apply (ok_index_range _ Hok) in Hsome.
  lia.
Qed.

Lemma env_ok_extend (self : Environment) reg name typ st ti :
  env_ok self → names self !! reg = None →
  (∀ n, reg = CRegister n → n = Z.of_nat (size (names self))) →
  (∀ v r, st !! v = Some r →
     ((∃ n, r = CRegister n) ∧ r = reg ∧ name = var_name v)
     ∨ symtable self !! v = Some r) →
  env_ok {| indexes := <[reg := Z.of_nat (size (names self))]> (indexes self);
            names := <[reg := name]> (names self);
            types := <[reg := typ]> (types self);
            symtable := st; temp_index := ti |}.
Proof.
  intros Hok Hfresh Hreg Hst.
  assert (indexes self !! reg = None) as Hifresh.
  { apply eq_None_not_Some. rewrite (ok_indexes_dom _ Hok), Hfresh.
    by intros []. }
  split; simpl; rewrite ?map_size_insert_None by done.
  - intros r. rewrite !lookup_insert_is_Some, (ok_indexes_dom _ Hok). done.
  - intros r. rewrite !lookup_insert_is_Some, (ok_types_dom _ Hok). done.
  - intros r i. destruct (decide (reg = r)) as [->|Hne].
    + rewrite lookup_insert_eq. intros [= <-]. lia.
    + rewrite lookup_insert_ne by done. intros Hi%(ok_index_range _ Hok). lia.
  - intros r r' i.
    destruct (decide (reg = r)) as [Heq|Hne],
      (decide (reg = r')) as [Heq'|Hne']; simplify_eq;
      rewrite ?lookup_insert_eq, ?lookup_insert_ne by done; try done.
    + intros [= <-] Hi%(ok_index_range _ Hok). lia.
    + intros Hi%(ok_index_range _ Hok) [= <-]. lia.
    + apply (ok_index_inj _ Hok).
  - intros i Hi.
    destruct (decide (i = Z.of_nat (size (names self)))) as [->|Hne].
    + exists reg. by rewrite lookup_insert_eq.
    + destruct (ok_index_onto _ Hok i) as [r Hr]; [lia|].
      exists r. rewrite lookup_insert_ne; [done|]. congruence.
  - intros n. destruct (decide (reg = CRegister n)) as [->|Hne].
    + intros _. rewrite lookup_insert_eq. f_equal. symmetry. by apply Hreg.
    + rewrite !lookup_insert_ne by done. apply (ok_cregister _ Hok).
  - intros v r [(Hn & -> & ->)|Hold]%Hst.
    + rewrite !lookup_insert_eq. split_and!; [done..|by eexists].
    + destruct (ok_symtable _ Hok v r Hold) as (Hn & Hname & Htype).
      assert (reg ≠ r) by congruence.
      rewrite !lookup_insert_ne by done. done.
Qed.

(** X8: every environment built from the empty one by [add_local],
    [add_temp] and [add_op] (each op added once) keeps its bookkeeping
    consistent: the three dictionaries name the same registers, the
    indexes are exactly [0 .. N-1], each used once, an integer register
    has its own number as index, and a bound variable resolves to an
    integer register that carries the variable's name and a type. *)
Theorem env_built_ok (self : Environment) : env_built self → env_ok self.
Proof.
  induction 1 as [|self v typ reg self' _ IH Hadd|self typ _ IH
                  |self op_id reg_type _ IH Hfresh].
  - apply env_ok_init.
  - injection Hadd as <- <-. unfold add; simpl.
    apply env_ok_extend; [done|by apply env_ok_fresh|by intros n [= <-]|].
    intros w r. destruct (decide (v = w)) as [->|Hne].
    + rewrite lookup_insert_eq. intros [= <-]. left. by eauto.
    + rewrite lookup_insert_ne by done. by right.
  - unfold add_temp, add; simpl.
    apply env_ok_extend; [done|by apply env_ok_fresh|by intros n [= <-]|].
    intros w r ?. by right.
  - destruct reg_type as [typ|]; [|done]. unfold add_op, add; simpl.
    apply env_ok_extend; [done..|by intros n [=]|]. intros w r ?. by right.
Qed.

Lemma env_built_ok_witness :
  env_ok (add_temp (add_op Environment_init 7 (Some int_rprimitive))
            bool_rprimitive).2.
Proof.
  apply env_built_ok. apply built_temp. apply built_op; [|done].
  apply built_init.
Defined.

End environment_invariant.

Section name_facts.

Local Abbreviation dot := ("."%char).

Lemma string_app_cons (ch : ascii) (a b : string) :
  String ch a +:+ b = String ch (a +:+ b).
Proof. reflexivity. Qed.

Lemma string_app_assoc (a b c : string) : (a +:+ b) +:+ c = a +:+ (b +:+ c).
Proof.
  induction a as [|ch a IH]; [done|]. by rewrite !string_app_cons, IH.
Qed.

Lemma string_length_app (a b : string) :
  String.length (a +:+ b) = String.length a + String.length b.
Proof.
  induction a as [|ch a IH]; [done|]. rewrite string_app_cons. simpl.
  by rewrite IH.
Qed.

Lemma chars_app (a b : string) :
  list_ascii_of_string (a +:+ b)
  = list_ascii_of_string a ++ list_ascii_of_string b.
Proof.
  induction a as [|ch a IH]; [done|]. rewrite string_app_cons. simpl.
  by rewrite IH.
Qed.

Lemma replace_dot_app (a b : string) :
  replace_dot (a +:+ b) = replace_dot a +:+ replace_dot b.
Proof.
  induction a as [|ch a IH]; [done|]. rewrite string_app_cons. simpl.
  rewrite IH. destruct (Ascii.eqb ch ".").
  - by rewrite string_app_assoc.
  - by rewrite string_app_cons.
Qed.

Lemma replace_dot_no_dot (s : string) :
  dot ∉ list_ascii_of_string (replace_dot s).
Proof.
  induction s as [|ch s IH]; simpl; [apply not_elem_of_nil|].
  destruct (Ascii.eqb ch ".") eqn:Hch.
  - simpl. rewrite !not_elem_of_cons. split_and!; done.
  - simpl. rewrite not_elem_of_cons. split; [|done].
    intros <-. by rewrite Ascii.eqb_refl in Hch.
Qed.

Lemma replace_dot_id (s : string) :
  dot ∉ list_ascii_of_string s → replace_dot s = s.
Proof.
  induction s as [|ch s IH]; simpl; [done|].
  rewrite not_elem_of_cons. intros [Hch Hs].
  destruct (Ascii.eqb ch ".") eqn:Heq.
  - apply Ascii.eqb_eq in Heq. congruence.
  - by rewrite IH.
Qed.

(** X9: the global name of an imported module never contains a dot; a
    module name without dots is kept after the [module_] prefix; a dot and
    the text [__dot__] at the same place give the same global name, so the
    naming is not injective. *)
Theorem c_module_name_dots (m a b : string) :
  (dot ∉ list_ascii_of_string (c_module_name m))
  ∧ (dot ∉ list_ascii_of_string m → c_module_name m = "module_" +:+ m)
  ∧ c_module_name (a +:+ "." +:+ b)
    = c_module_name a +:+ "__dot__" +:+ replace_dot b
  ∧ c_module_name (a +:+ "." +:+ b) = c_module_name (a +:+ "__dot__" +:+ b).
Proof.
  unfold c_module_name. split_and!.
  - rewrite chars_app, elem_of_app. intros [Hin|Hin].
    + simpl in Hin. rewrite !elem_of_cons, elem_of_nil in Hin.
      by repeat destruct Hin as [Hin|Hin].
    + by apply replace_dot_no_dot in Hin.
  - intros Hm. by rewrite replace_dot_id.
  - by rewrite replace_dot_app, string_app_assoc.
  - by rewrite !replace_dot_app.
Qed.

Lemma c_module_name_dots_witness :
  c_module_name "os" = "module_os".
Proof.
  apply (proj1 (proj2 (c_module_name_dots "os" "" ""))).
  simpl. rewrite !not_elem_of_cons. split_and!; [done..|apply not_elem_of_nil].
Defined.

Lemma substring_length_le (n m : nat) (s : string) :
  String.length (String.substring n m s) ≤ m.
Proof.
  revert n m. induction s as [|ch s IH]; intros [|n] [|m]; simpl; try lia.
  - specialize (IH 0 m). lia.
  - apply (IH n 0).
  - apply (IH n (S m)).
Qed.

(** X10: the struct name generated for a tuple type is [tuple_def_]
    followed by at most 15 characters, so at most 25 characters long,
    whatever the hash: it stays within the 31 characters the source allows
    for a C name. *)
Theorem struct_name_length (rtuple_hash : list RType → Z) (types : list RType) :
  String.length (unique_id rtuple_hash types) ≤ 15
  ∧ struct_name rtuple_hash types
    = "tuple_def_" +:+ unique_id rtuple_hash types
  ∧ String.length (struct_name rtuple_hash types) ≤ 25.
Proof.
  pose proof (substring_length_le 0 15
    (pretty (Z.abs (rtuple_hash types)))) as Hlen.
  unfold struct_name, unique_id. rewrite string_length_app. simpl.
  split_and!; [done..|lia].
Qed.

(** X11: building a [ModuleIR] from the import list of a [ModuleIR] adds
    nothing: the builtins module is never inserted twice; the constructor
    keeps the given imports as a subsequence, adds at most one name, and
    keeps a duplicate-free list duplicate-free. *)
Theorem ModuleIR_init_idempotent (imps : list string)
    (lits : list (string * string)) (fns : list FuncIR) (cls : list ClassIR) :
  imports (ModuleIR_init (imports (ModuleIR_init imps lits fns cls))
             lits fns cls)
  = imports (ModuleIR_init imps lits fns cls)
  ∧ sublist imps (imports (ModuleIR_init imps lits fns cls))
  ∧ length (imports (ModuleIR_init imps lits fns cls)) ≤ S (length imps)
  ∧ (NoDup imps → NoDup (imports (ModuleIR_init imps lits fns cls))).
Proof.
  unfold ModuleIR_init; simpl.
  destruct (decide ("builtins" ∈ imps)) as [Hin|Hin].
  - rewrite !(bool_decide_true _ Hin).
    split_and!; [done|reflexivity|lia|done].
  - rewrite !(bool_decide_false _ Hin).
    rewrite bool_decide_true by left.
    split_and!; [done|by apply sublist_cons|simpl; lia|].
    intros Hnd. by constructor.
Qed.

Lemma ModuleIR_init_idempotent_witness :
  NoDup (imports (ModuleIR_init ["os"; "sys"] [] [] [])).
Proof.
  apply (proj2 (proj2 (proj2 (ModuleIR_init_idempotent ["os"; "sys"] [] [] [])))).
  compute_done.
Defined.

End name_facts.

(** ** emitmodule.py: when the sort returns, and what it raises *)

Lemma for_each_cons {A S : Type} (f : A → S → Outcome S) x l s :
  for_each f (x :: l) s
  = match f x s with
    | Done s' => for_each f l s'
    | KeyError k => KeyError k
    | RecursionError => RecursionError
    end.
Proof. reflexivity. Qed.

Lemma _toposort_visit_S depth name st :
  _toposort_visit (S depth) name st
  = match marked_declarations st !! name with
    | None => KeyError name
    | Some decl =>
        if mark decl then Done st
        else
          match for_each (_toposort_visit depth)
                  (dependencies (declaration decl)) st with
          | Done st' =>
              Done {| marked_declarations :=
                        <[name := {| declaration := declaration decl;
                                     mark := true |}]>
                          (marked_declarations st');
                      result := result st' ++ [declaration decl] |}
          | KeyError k => KeyError k
          | RecursionError => RecursionError
          end
    end.
Proof. reflexivity. Qed.

Section toposort_outcomes.
Variable declarations : list (string * HeaderDeclaration).
Hypothesis Hkeys : NoDup declarations.*1.

Local Abbreviation dep := (depends_on declarations).
Local Abbreviation vinv := (visit_inv declarations).

Lemma visit_inv_initial :
  vinv {| marked_declarations := mark_all declarations; result := [] |} [].
Proof.
  destruct (inv_initial declarations Hkeys) as [? ? ? ? ?]. by split.
Qed.

Lemma visit_inv_lookup st sorted x :
  vinv st sorted →
((x ∉ declarations.*1) ∧ marked_declarations st !! x = None)
  ∨ (∃ d, (x, d) ∈ declarations
       ∧ marked_declarations st !! x
         = Some {| declaration := d; mark := bool_decide (x ∈ sorted.*1) |}).
Proof.
  intros Hinv. rewrite (vi_marks _ _ _ Hinv).
  destruct (list_to_map declarations !! x) as [d|] eqn:Hd; simpl.
  - right. exists d. split; [|done]. by apply elem_of_list_to_map_2.
  - left. split; [|done]. by apply not_elem_of_list_to_map.
Qed.

Lemma visit_inv_append st sorted x dx :
  vinv st sorted → (x, dx) ∈ declarations →
  (∀ y, y ∈ dependencies dx → y ∈ sorted.*1) →
  vinv {| marked_declarations :=
            <[x := {| declaration := dx; mark := true |}]>
              (marked_declarations st);
          result := result st ++ [dx] |}
       (sorted ++ [(x, dx)]).
Proof.
  intros [Hres Hsorted Hmarks Horder] Hx Hdeps. split; simpl.
  - by rewrite Hres, fmap_app.
  - intros x' d' [?|Hin]%elem_of_app; [by apply Hsorted|].
    apply list_elem_of_singleton in Hin. by simplify_eq.
  - intros k. rewrite fmap_app; simpl. destruct (decide (x = k)) as [<-|Hne].
    + rewrite lookup_insert_eq, (elem_of_list_to_map_1 _ _ _ Hkeys Hx); simpl.
      rewrite bool_decide_true; [done|]. apply elem_of_app. right. left.
    + rewrite lookup_insert_ne, Hmarks by done.
      destruct (list_to_map declarations !! k); simpl; [|done].
      do 2 f_equal. apply bool_decide_ext.
      rewrite elem_of_app, list_elem_of_singleton.
      split; [by left|]. by intros [?| ->].
  - intros j x' dx' y [Hj|[Hle Hj]]%lookup_app_Some Hy;
      [|apply list_lookup_singleton_Some in Hj as [Hj0 [= <- <-]]].
    + destruct (Horder j x' dx' y Hj Hy) as (i & dy & Hlt & Hi).
      exists i, dy. split; [done|]. by apply lookup_app_l_Some.
    + apply Hdeps in Hy. apply list_elem_of_fmap in Hy as ([y' dy] & -> & Hy).
      apply list_elem_of_lookup in Hy as [i Hi]. exists i, dy.
      split; [|by apply lookup_app_l_Some].
      apply lookup_lt_Some in Hi. lia.
Qed.

(** A loop of visits that ends normally. *)
Lemma for_each_done (visit : string → SortState → Outcome SortState)
    (cs : list string) :
  (∀ c st sorted st', c ∈ cs → vinv st sorted → visit c st = Done st' →
     ∃ new, vinv st' (sorted ++ new) ∧ c ∈ (sorted ++ new).*1) →
  ∀ st sorted st', vinv st sorted → for_each visit cs st = Done st' →
    ∃ new, vinv st' (sorted ++ new) ∧ ∀ c, c ∈ cs → c ∈ (sorted ++ new).*1.
Proof.
  induction cs as [|c cs IH]; intros Hvisit st sorted st' Hinv; simpl.
  { intros [= <-]. exists []. rewrite app_nil_r. split; [done|].
    intros c Hc. by apply elem_of_nil in Hc. }
  destruct (visit c st) as [st1| |] eqn:Hc; [|done..]. intros Hrest.
  destruct (Hvisit c st sorted st1) as (new1 & Hinv1 & Hin1); [left|done..|].
  destruct (IH (λ c' st sorted st' Hc', Hvisit c' st sorted st'
              (list_elem_of_further _ _ _ Hc')) st1 (sorted ++ new1) st'
              Hinv1 Hrest) as (new2 & Hinv2 & Hin2).
  exists (new1 ++ new2). rewrite app_assoc. split; [done|].
  intros c' [->|Hc']%elem_of_cons; [|by apply Hin2].
  rewrite fmap_app. apply elem_of_app. by left.
Qed.

Lemma visit_done depth : ∀ x st sorted st',
  vinv st sorted → _toposort_visit depth x st = Done st' →
  ∃ new, vinv st' (sorted ++ new) ∧ x ∈ (sorted ++ new).*1.
Proof.
  induction depth as [|depth IH]; intros x st sorted st' Hinv; simpl; [done|].
  destruct (visit_inv_lookup st sorted x Hinv) as [[_ ->]|(dx & Hdx & ->)];
    [done|]. simpl.
  case_bool_decide as Hmarked.
  { intros [= <-]. exists []. by rewrite app_nil_r. }
  destruct (for_each _ _ st) as [st1| |] eqn:Hloop; [|done..]. intros [= <-].
  destruct (for_each_done (_toposort_visit depth) (dependencies dx)
              (λ c st sorted st' _, IH c st sorted st') st sorted st1 Hinv Hloop)
    as (new & Hinv1 & Hdeps).
  exists (new ++ [(x, dx)]). rewrite app_assoc. split.
  - by apply visit_inv_append.
  - rewrite fmap_app. apply elem_of_app. right. left.
Qed.

Lemma toposort_done_inv depth l :
  toposort_declarations depth declarations = Done l →
  ∃ st sorted, vinv st sorted ∧ l = sorted.*2
    ∧ ∀ k, k ∈ declarations.*1 → k ∈ sorted.*1.
Proof.
  unfold toposort_declarations.
  destruct (for_each _ _ _) as [st| |] eqn:Hloop; [|done..]. intros [= <-].
  destruct (for_each_done (_toposort_visit depth) declarations.*1
              (λ c st sorted st' _, visit_done depth c st sorted st')
              _ [] st visit_inv_initial Hloop) as (sorted & Hinv & Hall).
  exists st, sorted. split_and!; [done|by apply (vi_result _ _ _ Hinv)|done].
Qed.

Lemma first_position_spec sorted x :
  x ∈ sorted.*1 →
  (∃ d, sorted !! first_position sorted x = Some (x, d))
  ∧ ∀ i d, sorted !! i = Some (x, d) → first_position sorted x ≤ i.
Proof.
  intros Hx. unfold first_position.
  destruct (list_find_elem_of (λ k, k = x) sorted.*1 x Hx eq_refl)
    as [[j k] Hfind].
  rewrite Hfind. apply list_find_Some in Hfind as (Hj & -> & Hfirst).
  rewrite list_lookup_fmap in Hj.
  destruct (sorted !! j) as [[x' d]|] eqn:Hsj; simplify_eq/=. split.
  - by exists d.
  - intros i d' Hi. destruct (decide (j ≤ i)) as [|Hlt]; [done|].
    destruct (Hfirst i x); [|lia|done].
    by rewrite list_lookup_fmap, Hi.
Qed.

Lemma done_closed_acyclic depth l :
  toposort_declarations depth declarations = Done l →
  deps_closed declarations ∧ acyclic declarations.
Proof.
  intros (st & sorted & Hinv & _ & Hall)%toposort_done_inv.
  assert (∀ x y, dep x y →
            ∃ j d i dy, sorted !! j = Some (x, d) ∧ i < j
              ∧ sorted !! i = Some (y, dy)
              ∧ j = first_position sorted x) as Hedge.
  { intros x y (d & Hd & Hy).
    assert (x ∈ sorted.*1) as Hx.
    { apply Hall, list_elem_of_fmap. by exists (x, d). }
    destruct (first_position_spec sorted x Hx) as [[d' Hj] _].
    assert (d' = d) as ->.
    { apply list_elem_of_lookup_2, (vi_sorted _ _ _ Hinv) in Hj.
      apply (elem_of_list_to_map_1 _ _ _ Hkeys) in Hj, Hd. congruence. }
    destruct (vi_order _ _ _ Hinv _ _ _ _ Hj Hy) as (i & dy & Hlt & Hi).
    by exists (first_position sorted x), d, i, dy. }
  split.
  - intros x y (j & d & i & dy & _ & _ & Hi & _)%Hedge.
    apply list_elem_of_lookup_2, (vi_sorted _ _ _ Hinv) in Hi.
    apply list_elem_of_fmap. by exists (y, dy).
  - apply (acyclic_of_rank declarations (first_position sorted)).
    intros x y (j & d & i & dy & _ & Hlt & Hi & ->)%Hedge.
    assert (y ∈ sorted.*1) as Hy.
    { apply list_elem_of_fmap. exists (y, dy).
      split; [done|by eapply list_elem_of_lookup_2]. }
    destruct (first_position_spec sorted y Hy) as [_ Hmin].
    specialize (Hmin i dy Hi). lia.
Qed.

(** A loop of visits that raises: some visit raised, in a state that the
    visits before it left consistent. *)
Lemma for_each_raised (visit : string → SortState → Outcome SortState)
    (cs : list string) :
  (∀ c st sorted st', c ∈ cs → vinv st sorted → visit c st = Done st' →
     ∃ new, vinv st' (sorted ++ new) ∧ c ∈ (sorted ++ new).*1) →
  ∀ st sorted o, vinv st sorted → for_each visit cs st = o →
    (∀ s, o ≠ Done s) →
    ∃ c st1 sorted1, c ∈ cs ∧ vinv st1 sorted1 ∧ visit c st1 = o.
Proof.
  induction cs as [|c cs IH]; intros Hvisit st sorted o Hinv; simpl.
  { intros <- Ho. by destruct (Ho st). }
  destruct (visit c st) as [st1| |] eqn:Hc.
  - intros Hrest Ho.
    destruct (Hvisit c st sorted st1) as (new1 & Hinv1 & _); [left|done..|].
    destruct (IH (λ c' st sorted st' Hc', Hvisit c' st sorted st'
                (list_elem_of_further _ _ _ Hc')) st1 (sorted ++ new1) o
                Hinv1 Hrest Ho) as (c' & st2 & sorted2 & Hc' & Hinv2 & Hraise).
    exists c', st2, sorted2. split; [by right|done].
  - intros <- _. exists c, st, sorted. split; [left|done].
  - intros <- _. exists c, st, sorted. split; [left|done].
Qed.

Lemma visit_keyerror depth : ∀ x st sorted k,
  vinv st sorted → _toposort_visit depth x st = KeyError k →
  (k ∉ declarations.*1) ∧ (k = x ∨ ∃ p, dep p k).
Proof.
  induction depth as [|depth IH]; intros x st sorted k Hinv; simpl; [done|].
  destruct (visit_inv_lookup st sorted x Hinv) as [[Hx ->]|(dx & Hdx & ->)].
  { intros [= <-]. split; [done|by left]. }
  simpl. case_bool_decide as Hmarked; [done|].
  destruct (for_each _ _ st) as [st1| |] eqn:Hloop; [done| |done].
  intros [= ->].
  destruct (for_each_raised (_toposort_visit depth) (dependencies dx)
              (λ c st sorted st' _, visit_done depth c st sorted st')
              st sorted (KeyError k) Hinv Hloop)
    as (c & st1 & sorted1 & Hc & Hinv1 & Hraise); [done|].
  destruct (IH c st1 sorted1 k Hinv1 Hraise) as [Hk [->|Hp]].
  - split; [done|]. right. exists x. by exists dx.
  - split; [done|by right].
Qed.

Lemma toposort_keyerror depth k :
  toposort_declarations depth declarations = KeyError k →
  (k ∉ declarations.*1) ∧ ∃ p, dep p k.
Proof.
  unfold toposort_declarations.
  destruct (for_each _ _ _) as [st| |] eqn:Hloop; [done| |done].
  intros [= ->].
  destruct (for_each_raised (_toposort_visit depth) declarations.*1
              (λ c st sorted st' _, visit_done depth c st sorted st')
              _ [] (KeyError k) visit_inv_initial Hloop)
    as (c & st1 & sorted1 & Hc & Hinv1 & Hraise); [done|].
  destruct (visit_keyerror depth c st1 sorted1 k Hinv1 Hraise) as [Hk [->|Hp]];
    done.
Qed.

Lemma visit_progress depth : ∀ x stack st sorted,
  acyclic declarations → vinv st sorted →
  NoDup stack →
  (∀ a, a ∈ stack → a ∈ declarations.*1 ∧ tc dep a x) →
  length declarations < depth + length stack →
  _toposort_visit depth x st ≠ RecursionError.
Proof.
  induction depth as [|depth IH];
    intros x stack st sorted Hacyclic Hinv Hnd Hstack Hlen.
  { pose proof (stack_bounded declarations stack Hnd
      (λ a Ha, proj1 (Hstack a Ha))). lia. }
  simpl.
  destruct (visit_inv_lookup st sorted x Hinv) as [[Hx ->]|(dx & Hdx & ->)];
    [done|]. simpl.
  case_bool_decide as Hmarked; [done|].
  destruct (for_each _ _ st) as [st1| |] eqn:Hloop; [done..|].
  destruct (for_each_raised (_toposort_visit depth) (dependencies dx)
              (λ c st sorted st' _, visit_done depth c st sorted st')
              st sorted RecursionError Hinv Hloop)
    as (c & st1 & sorted1 & Hc & Hinv1 & Hraise); [done|].
  destruct (IH c (x :: stack) st1 sorted1); try done.
  - constructor; [|done]. intros [_ Hcycle]%Hstack. by apply (Hacyclic x).
  - assert (dep x c) as Hxc by by exists dx.
    intros a [->|Ha]%elem_of_cons.
    + split; [|by apply tc_once]. apply list_elem_of_fmap. by exists (x, dx).
    + destruct (Hstack a Ha) as [? Hax]. split; [done|by eapply tc_r].
  - simpl. lia.
Qed.

Lemma toposort_progress depth :
  acyclic declarations → length declarations < depth →
  toposort_declarations depth declarations ≠ RecursionError.
Proof.
  intros Hacyclic Hdepth. unfold toposort_declarations.
  destruct (for_each _ _ _) as [st| |] eqn:Hloop; [done..|]. intros _.
  destruct (for_each_raised (_toposort_visit depth) declarations.*1
              (λ c st sorted st' _, visit_done depth c st sorted st')
              _ [] RecursionError visit_inv_initial Hloop)
    as (c & st1 & sorted1 & Hc & Hinv1 & Hraise); [done|].
  destruct (visit_progress depth c [] st1 sorted1); try done.
  - constructor.
  - intros a Ha. by apply elem_of_nil in Ha.
  - simpl. lia.
Qed.

(** Visiting names that are all marked changes nothing. *)
Lemma for_each_marked depth (cs : list string) st sorted :
  vinv st sorted → (∀ c, c ∈ cs → c ∈ sorted.*1) →
  for_each (_toposort_visit (S depth)) cs st = Done st.
Proof.
  intros Hinv. induction cs as [|c cs IH]; intros Hcs; simpl; [done|].
  assert (c ∈ sorted.*1) as Hc by (apply Hcs; left).
  destruct (visit_inv_lookup st sorted c Hinv) as [[Hnot _]|(d & Hd & ->)].
  - destruct Hnot. apply list_elem_of_fmap in Hc as ([c' d] & -> & Hin).
    apply (vi_sorted _ _ _ Hinv) in Hin. apply list_elem_of_fmap.
    by exists (c', d).
  - simpl. rewrite bool_decide_true by done. apply IH.
    intros c' Hc'. apply Hcs. by right.
Qed.

Lemma for_each_ordered depth :
  dependency_ordered declarations →
  ∀ post pre st, declarations = pre ++ post → vinv st pre →
    ∃ st', for_each (_toposort_visit (S (S depth))) post.*1 st = Done st'
      ∧ vinv st' declarations.
Proof.
  intros Hord post.
  induction post as [|[x dx] post IH]; intros pre st Hsplit Hinv.
  { rewrite app_nil_r in Hsplit. subst. by exists st. }
  assert (declarations !! length pre = Some (x, dx)) as Hx.
  { rewrite Hsplit. by apply list_lookup_middle. }
  assert ((x, dx) ∈ declarations) as Hin by by eapply list_elem_of_lookup_2.
  assert (x ∉ pre.*1) as Hfresh.
  { rewrite Hsplit, fmap_app in Hkeys. apply NoDup_app in Hkeys as (_ & Hd & _).
    intros Hpre. apply (Hd x Hpre). left. }
  assert (∀ y, y ∈ dependencies dx → y ∈ pre.*1) as Hdeps.
  { intros y Hy. destruct (Hord _ _ _ _ Hx Hy) as (i & dy & Hlt & Hi).
    rewrite Hsplit, lookup_app_l in Hi by done.
    apply list_elem_of_fmap. exists (y, dy).
    split; [done|by eapply list_elem_of_lookup_2]. }
  rewrite fmap_cons, for_each_cons, _toposort_visit_S. cbn [fst].
  destruct (visit_inv_lookup st pre x Hinv) as [[Hnot _]|(d & Hd & ->)].
  { destruct Hnot. apply list_elem_of_fmap. by exists (x, dx). }
  assert (d = dx) as ->.
  { apply (elem_of_list_to_map_1 _ _ _ Hkeys) in Hd, Hin. congruence. }
  cbn [mark declaration]. rewrite bool_decide_false by done.
  rewrite (for_each_marked depth _ st pre) by done.
  apply (IH (pre ++ [(x, dx)])).
  - by rewrite <-app_assoc.
  - by apply visit_inv_append.
Qed.

Lemma toposort_ordered depth :
  dependency_ordered declarations → 2 ≤ depth →
  toposort_declarations depth declarations = Done declarations.*2.
Proof.
  intros Hord Hdepth. destruct depth as [|[|depth]]; [lia..|].
  unfold toposort_declarations.
  destruct (for_each_ordered depth Hord declarations [] _ eq_refl
              visit_inv_initial) as (st' & -> & Hinv).
  by rewrite (vi_result _ _ _ Hinv).
Qed.

End toposort_outcomes.

(** X12: [toposort_declarations] returns normally only for a graph that is
    closed and acyclic: if some recursion budget gives a result, then every
    dependency is declared and no declaration depends on itself through a
    chain of dependencies. *)
Theorem toposort_done_only_if_acyclic
    (declarations : list (string * HeaderDeclaration)) (depth : nat)
    (l : list HeaderDeclaration) :
  NoDup declarations.*1 →
  toposort_declarations depth declarations = Done l →
  deps_closed declarations ∧ acyclic declarations.
Proof. intros Hkeys. by apply done_closed_acyclic. Qed.

Lemma toposort_done_only_if_acyclic_witness :
  deps_closed diamond ∧ acyclic diamond.
Proof.
  apply (toposort_done_only_if_acyclic diamond 5
    [ mkHeaderDeclaration [] ["struct W;"];
      mkHeaderDeclaration ["W"] ["struct Y;"];
      mkHeaderDeclaration ["W"] ["struct Z;"];
      mkHeaderDeclaration ["Y"; "Z"] ["struct X;"] ]).
  - compute_done.
  - vm_compute. reflexivity.
Defined.

(** X13: when every dependency is declared and some declaration depends
    on itself through a chain of dependencies, [toposort_declarations]
    never returns: whatever the recursion budget, the recursion uses it
    up. *)
Theorem toposort_cycle_never_returns
    (declarations : list (string * HeaderDeclaration)) (x : string)
    (depth : nat) :
  NoDup declarations.*1 →
  deps_closed declarations →
  tc (depends_on declarations) x x →
  toposort_declarations depth declarations = RecursionError.
Proof.
  intros Hkeys Hclosed Hcycle.
  destruct (toposort_declarations depth declarations) as [l|k|] eqn:Hrun.
  - destruct (done_closed_acyclic declarations Hkeys depth l Hrun)
      as [_ Hacyclic].
    by destruct (Hacyclic x).
  - destruct (toposort_keyerror declarations Hkeys depth k Hrun)
      as [Hk [p Hp]].
    by destruct Hk; eapply Hclosed.
  - done.
Qed.

Lemma toposort_cycle_never_returns_witness :
  toposort_declarations 1000
    [("A", mkHeaderDeclaration ["B"] ["struct A;"]);
     ("B", mkHeaderDeclaration ["A"] ["struct B;"])]
  = RecursionError.
Proof.
  apply (toposort_cycle_never_returns _ "A").
  - compute_done.
  - intros x y (d & Hin & Hy).
    repeat (apply elem_of_cons in Hin as [Hin|Hin]; [simplify_eq/=|]);
      [..|by apply elem_of_nil in Hin];
      apply list_elem_of_singleton in Hy as ->; compute_done.
  - apply (tc_l _ "A" "B" "A"); [|apply tc_once].
    + eexists. split; [left|left].
    + eexists. split; [right; left|left].
Defined.

(** X14: when the graph is acyclic and some declaration names a dependency
    that is not declared, [toposort_declarations] raises [KeyError], for a
    name that is not declared and that some declaration depends on
    (given a recursion budget above the number of declarations). *)
Theorem toposort_missing_dependency
    (declarations : list (string * HeaderDeclaration)) (x y : string)
    (depth : nat) :
  NoDup declarations.*1 →
  acyclic declarations →
  depends_on declarations x y → y ∉ declarations.*1 →
  length declarations < depth →
  ∃ k, toposort_declarations depth declarations = KeyError k
    ∧ (k ∉ declarations.*1) ∧ ∃ p, depends_on declarations p k.
Proof.
  intros Hkeys Hacyclic Hxy Hy Hdepth.
  destruct (toposort_declarations depth declarations) as [l|k|] eqn:Hrun.
  - destruct (done_closed_acyclic declarations Hkeys depth l Hrun)
      as [Hclosed _].
    by destruct Hy; eapply Hclosed.
  - exists k. split; [done|]. by eapply toposort_keyerror.
  - by destruct (toposort_progress declarations Hkeys depth).
Qed.

Lemma toposort_missing_dependency_witness :
  ∃ k, toposort_declarations 3
         [("A", mkHeaderDeclaration ["B"] ["struct A;"]);
          ("C", mkHeaderDeclaration [] ["struct C;"])]
       = KeyError k
    ∧ (k ∉ ["A"; "C"])
    ∧ ∃ p, depends_on
             [("A", mkHeaderDeclaration ["B"] ["struct A;"]);
              ("C", mkHeaderDeclaration [] ["struct C;"])] p k.
Proof.
  refine (toposort_missing_dependency
    [("A", mkHeaderDeclaration ["B"] ["struct A;"]);
     ("C", mkHeaderDeclaration [] ["struct C;"])] "A" "B" 3 _ _ _ _ _).
  - compute_done.
  - apply (acyclic_of_rank _ (λ name, if bool_decide (name = "A") then 1 else 0)).
    intros x y (d & Hin & Hy).
    repeat (apply elem_of_cons in Hin as [Hin|Hin]; [simplify_eq/=|]);
      [..|by apply elem_of_nil in Hin].
    + apply list_elem_of_singleton in Hy as ->. compute_done.
    + by apply elem_of_nil in Hy.
  - eexists. split; [left|left].
  - compute_done.
  - simpl. lia.
Defined.

(** X15: declarations that are already listed in dependency order come
    back in that order: the sort keeps the order of the context whenever
    that order is admissible (recursion budget at least 2). *)
Theorem toposort_keeps_admissible_order
    (declarations : list (string * HeaderDeclaration)) (depth : nat) :
  NoDup declarations.*1 →
  dependency_ordered declarations →
  2 ≤ depth →
  toposort_declarations depth declarations = Done declarations.*2.
Proof. intros Hkeys Hord Hdepth. by apply toposort_ordered. Qed.

Lemma toposort_keeps_admissible_order_witness :
  toposort_declarations 2
    [("W", mkHeaderDeclaration [] ["struct W;"]);
     ("Y", mkHeaderDeclaration ["W"] ["struct Y;"]);
     ("X", mkHeaderDeclaration ["Y"; "W"] ["struct X;"])]
  = Done [mkHeaderDeclaration [] ["struct W;"];
          mkHeaderDeclaration ["W"] ["struct Y;"];
          mkHeaderDeclaration ["Y"; "W"] ["struct X;"]].
Proof.
  apply (toposort_keeps_admissible_order
    [("W", mkHeaderDeclaration [] ["struct W;"]);
     ("Y", mkHeaderDeclaration ["W"] ["struct Y;"]);
     ("X", mkHeaderDeclaration ["Y"; "W"] ["struct X;"])] 2).
  - compute_done.
  - intros j x dx y Hj Hy.
    destruct j as [|[|[|j]]]; simplify_eq/=.
    + by apply elem_of_nil in Hy.
    + apply list_elem_of_singleton in Hy as ->. exists 0. eexists.
      split; [lia|done].
    + apply elem_of_cons in Hy as [->|Hy].
      * exists 1. eexists. split; [lia|done].
      * apply list_elem_of_singleton in Hy as ->. exists 0. eexists.
        split; [lia|done].
  - lia.
Defined.

(** ** emitmodule.py: declaring globals *)

Section declare_facts.
Implicit Types ds : list (string * HeaderDeclaration).

(** X16: [declare_global] declares a name once: afterwards the name is
    declared, the earlier declarations are kept in place, and a name that
    is declared already keeps its first declaration, whatever type the
    later call gives; so declaring twice is declaring once, and distinct
    names stay distinct. *)
Theorem declare_global_once ds (type_spaced type_spaced' name : string)
    (static static' : bool) :
  name ∈ (declare_global ds type_spaced name static).*1
  ∧ ds `prefix_of` declare_global ds type_spaced name static
  ∧ (name ∈ ds.*1 → declare_global ds type_spaced name static = ds)
  ∧ declare_global (declare_global ds type_spaced name static)
      type_spaced' name static'
    = declare_global ds type_spaced name static
  ∧ (NoDup ds.*1 → NoDup (declare_global ds type_spaced name static).*1).
Proof.
  unfold declare_global.
  destruct (decide (name ∈ ds.*1)) as [Hin|Hin].
  - rewrite !(bool_decide_false (name ∉ ds.*1)) by by intros ?.
    split_and!; try done.
  - rewrite !(bool_decide_true (name ∉ ds.*1)) by done.
    rewrite bool_decide_false.
    2:{ intros Hnot. apply Hnot. rewrite fmap_app. apply elem_of_app.
        right. left. }
    split_and!; try done.
    + rewrite fmap_app. apply elem_of_app. right. left.
    + by apply prefix_app_r.
    + intros Hnd. rewrite fmap_app. apply NoDup_app.
      split_and!; [done| |apply NoDup_singleton].
      intros k Hk ->%list_elem_of_singleton. done.
Qed.

Lemma declare_global_once_witness :
  NoDup (declare_global [] "PyObject *" "_globals" true).*1.
Proof.
  apply (proj2 (proj2 (proj2 (proj2
    (declare_global_once [] "PyObject *" "" "_globals" true true))))).
  constructor.
Defined.

(** Contexts that hold globals only. *)
Lemma declare_global_plain ds type_spaced name static :
  NoDup ds.*1 ∧ Forall (λ kv, dependencies kv.2 = []) ds →
  (NoDup (declare_global ds type_spaced name static).*1
   ∧ Forall (λ kv, dependencies kv.2 = [])
       (declare_global ds type_spaced name static))
  ∧ ds `prefix_of` declare_global ds type_spaced name static
  ∧ name ∈ (declare_global ds type_spaced name static).*1.
Proof.
  intros [Hnd Hplain]. unfold declare_global.
  destruct (decide (name ∈ ds.*1)) as [Hin|Hin].
  - rewrite !(bool_decide_false (name ∉ ds.*1)) by by intros ?. done.
  - rewrite !(bool_decide_true (name ∉ ds.*1)) by done.
    split; [split|split].
    + rewrite fmap_app. apply NoDup_app.
      split_and!; [done| |apply NoDup_singleton].
      intros k Hk ->%list_elem_of_singleton. done.
    + apply Forall_app. split; [done|]. by repeat constructor.
    + by apply prefix_app_r.
    + rewrite fmap_app. apply elem_of_app. right. left.
Qed.

Lemma declare_imports_plain ds imps :
  NoDup ds.*1 ∧ Forall (λ kv, dependencies kv.2 = []) ds →
  NoDup (declare_imports ds imps).*1
  ∧ Forall (λ kv, dependencies kv.2 = []) (declare_imports ds imps).
Proof.
  revert ds. induction imps as [|imp imps IH]; intros ds Hds; [done|].
  simpl. apply IH. by apply declare_global_plain.
Qed.

Lemma globals_declared_plain ds :
  globals_declared ds →
  NoDup ds.*1 ∧ Forall (λ kv, dependencies kv.2 = []) ds.
Proof.
  induction 1 as [|ds ? ? ? _ IH|ds _ IH|ds ? _ IH|ds ? _ IH|ds ? _ IH].
  - split; constructor.
  - by apply declare_global_plain.
  - by apply declare_global_plain.
  - by apply declare_global_plain.
  - by apply declare_imports_plain.
  - by apply declare_global_plain.
Qed.

(** X17: a context filled by the declaring methods alone
    ([declare_global], [declare_internal_globals], [declare_import],
    [declare_imports], [declare_static_pyobject]) holds declarations with
    distinct names and no dependencies, and the sort returns them in the
    order in which they were declared. *)
Theorem globals_declared_sorted ds (depth : nat) :
  globals_declared ds → 2 ≤ depth →
  NoDup ds.*1
  ∧ Forall (λ kv, dependencies kv.2 = []) ds
  ∧ toposort_declarations depth ds = Done ds.*2.
Proof.
  intros [Hnd Hplain]%globals_declared_plain Hdepth.
  split_and!; [done..|].
  apply toposort_ordered; [done| |done].
  intros j x dx y Hj Hy.
  apply list_elem_of_lookup_2 in Hj.
  pose proof (proj1 (Forall_forall _ _) Hplain _ Hj) as Hnone.
  simpl in Hnone. rewrite Hnone in Hy. by apply elem_of_nil in Hy.
Qed.

Lemma globals_declared_sorted_witness :
  toposort_declarations 2
    (declare_static_pyobject
       (declare_imports (declare_internal_globals [])
          ["builtins"; "os.path"; "builtins"])
       "lit_3")
  = Done [ mkHeaderDeclaration [] ["static PyObject *_globals;"];
           mkHeaderDeclaration [] ["static CPyModule *module_builtins;"];
           mkHeaderDeclaration [] ["static CPyModule *module_os__dot__path;"];
           mkHeaderDeclaration [] ["static PyObject *lit_3;"] ].
Proof.
  apply (proj2 (proj2 (globals_declared_sorted _ 2
    (declared_static_pyobject _ "lit_3"
       (declared_imports _ ["builtins"; "os.path"; "builtins"]
          (declared_internal_globals _ declared_none)))
    (le_n 2)))).
Defined.

Local Abbreviation import_lines :=
  (λ imp : string,
     [ c_module_name imp +:+ " = PyImport_ImportModule(" +:+ dq +:+ imp
         +:+ dq +:+ ");";
       "if (" +:+ c_module_name imp +:+ " == NULL)";
       "    return NULL;" ]).

Lemma import_lines_lookup (imps : list string) : ∀ i imp k,
  imps !! i = Some imp → k < 3 →
  (imps ≫= import_lines) !! (3 * i + k) = import_lines imp !! k.
Proof.
  induction imps as [|x imps IH]; intros [|i] imp k Hi Hk; try done.
  - simpl in Hi. injection Hi as ->.
    rewrite bind_cons, lookup_app_l by (simpl; lia). done.
  - rewrite bind_cons, lookup_app_r by (simpl; lia).
    replace (3 * S i + k - length (import_lines x)) with (3 * i + k)
      by (simpl; lia).
    by apply IH.
Qed.

Lemma declare_global_prefix ds type_spaced name static :
  ds `prefix_of` declare_global ds type_spaced name static.
Proof. unfold declare_global. case_bool_decide; [by apply prefix_app_r|done]. Qed.

Lemma declare_imports_prefix ds imps : ds `prefix_of` declare_imports ds imps.
Proof.
  revert ds. induction imps as [|imp imps IH]; intros ds; [done|].
  simpl. etrans; [|apply IH]. apply declare_global_prefix.
Qed.

Lemma declare_imports_declared ds imps imp :
  imp ∈ imps →
  c_module_name imp ∈ (declare_imports ds imps).*1
  ∧ (c_module_name imp ∉ ds.*1 →
     (c_module_name imp,
      mkHeaderDeclaration []
        ["static CPyModule *" +:+ c_module_name imp +:+ ";"])
     ∈ declare_imports ds imps).
Proof.
  revert ds. induction imps as [|x imps IH]; intros ds Himp.
  { by apply elem_of_nil in Himp. }
  simpl. destruct (decide (c_module_name imp = c_module_name x)) as [Heq|Hne].
  - destruct (declare_imports_prefix (declare_import ds x) imps) as [rest ->].
    unfold declare_import, declare_global. rewrite <-Heq. split.
    + rewrite fmap_app, elem_of_app. left.
      case_bool_decide as Hin.
      * rewrite fmap_app, elem_of_app. right. left.
      * by destruct (decide (c_module_name imp ∈ ds.*1)).
    + intros Hnew. rewrite bool_decide_true by done.
      rewrite !elem_of_app. left. right. left.
  - apply elem_of_cons in Himp as [->|Himp]; [done|].
    destruct (IH (declare_import ds x) Himp) as [Hin Hdecl].
    split; [done|]. intros Hnew. apply Hdecl.
    unfold declare_import, declare_global.
    case_bool_decide; [|done].
    rewrite fmap_app, elem_of_app. simpl. rewrite list_elem_of_singleton.
    tauto.
Qed.

(** X18: the module globals the init function assigns are the ones the
    generator declares.  [generate_imports_init_section] never raises and
    emits three lines per import, in the order of the imports: the
    assignment of the imported module to its global, the test of the
    global, and the return.  [declare_imports] keeps the earlier
    declarations and declares the global of every import, as a static
    module pointer where the name was not declared before. *)
Theorem imports_initialised_declared ds (imps emitted : list string) :
  generate_imports_init_section imps emitted
  = (emitted ++ (imps ≫= import_lines), Ok tt)
  ∧ (∀ i imp, imps !! i = Some imp →
       (imps ≫= import_lines) !! (3 * i)
       = Some (c_module_name imp +:+ " = PyImport_ImportModule(" +:+ dq
               +:+ imp +:+ dq +:+ ");")
       ∧ (imps ≫= import_lines) !! (3 * i + 1)
         = Some ("if (" +:+ c_module_name imp +:+ " == NULL)")
       ∧ (imps ≫= import_lines) !! (3 * i + 2) = Some "    return NULL;")
  ∧ ds `prefix_of` declare_imports ds imps
  ∧ (∀ imp, imp ∈ imps →
       c_module_name imp ∈ (declare_imports ds imps).*1
       ∧ (c_module_name imp ∉ ds.*1 →
          (c_module_name imp,
           mkHeaderDeclaration []
             ["static CPyModule *" +:+ c_module_name imp +:+ ";"])
          ∈ declare_imports ds imps)).
Proof.
  split_and!.
  - apply for_in_emits. intros imp e.
    unfold mbind, Emit_bind, Emitter_emit_line. by rewrite <-!app_assoc.
  - intros i imp Hi. split_and!.
    + replace (3 * i) with (3 * i + 0) by lia.
      by rewrite (import_lines_lookup imps i imp 0 Hi) by lia.
    + by rewrite (import_lines_lookup imps i imp 1 Hi) by lia.
    + by rewrite (import_lines_lookup imps i imp 2 Hi) by lia.
  - apply declare_imports_prefix.
  - intros imp. apply declare_imports_declared.
Qed.

Lemma imports_initialised_declared_witness :
  generate_imports_init_section ["builtins"; "os.path"] []
  = ([ "module_builtins = PyImport_ImportModule(" +:+ dq +:+ "builtins"
         +:+ dq +:+ ");";
       "if (module_builtins == NULL)";
       "    return NULL;";
       "module_os__dot__path = PyImport_ImportModule(" +:+ dq +:+ "os.path"
         +:+ dq +:+ ");";
       "if (module_os__dot__path == NULL)";
       "    return NULL;" ], Ok tt)
  ∧ ("module_os__dot__path",
     mkHeaderDeclaration [] ["static CPyModule *module_os__dot__path;"])
    ∈ declare_imports (declare_internal_globals []) ["builtins"; "os.path"].
Proof.
  split.
  - apply (proj1 (imports_initialised_declared [] ["builtins"; "os.path"] [])).
  - refine (proj2 (proj2 (proj2 (proj2 (imports_initialised_declared
      (declare_internal_globals []) ["builtins"; "os.path"] [])))
      "os.path" _) _); compute_done.
Defined.

End declare_facts.
(** ** emitfunc.py: visit_branch *)

Section branch_facts_emit.
Context `{EmitterInterface E}.
Variables union_undefined void_undefined : option string.
Variable label : Label → string.
Variable env : Environment.
Variables func_name source_path : string.

Local Abbreviation branch_cond :=
  (branch_cond union_undefined void_undefined env).
Local Abbreviation visit_branch :=
  (visit_branch union_undefined void_undefined label env func_name source_path).
Local Abbreviation c_error_value :=
  (c_error_value union_undefined void_undefined).

(** X19: [visit_branch] emits code exactly when it can build the
    condition.  It always can for a truth test and for a [None] test.  An
    error test needs the type of the left register: on a tuple type it
    compares only field [f0] with the sentinel of the first element, and
    it fails for a register without type, for the empty tuple and for a
    tuple whose first element is a tuple.  An operator outside the nine
    known codes fails. *)
Theorem visit_branch_conditions (self : E) (op : Branch) :
  (is_Some (visit_branch self op) ↔ is_Some (branch_cond self op))
  ∧ (br_op op = BOOL_EXPR ∨ br_op op = IS_NONE →
       is_Some (visit_branch self op))
  ∧ (br_op op = IS_ERROR →
       (types env !! br_left op = None → visit_branch self op = None)
       ∧ (types env !! br_left op = Some (RTuple []) →
            visit_branch self op = None)
       ∧ (∀ ts rest,
            types env !! br_left op = Some (RTuple (RTuple ts :: rest)) →
            visit_branch self op = None)
       ∧ (∀ t rest value,
            types env !! br_left op = Some (RTuple (t :: rest)) →
            c_error_value t = Some value →
            branch_cond self op
            = Some (reg self (br_left op) +:+ ".f0 "
                    +:+ (if br_negated op then "!=" else "==")
                    +:+ " " +:+ value)))
  ∧ (br_op op ∉ [INT_EQ; INT_NE; INT_LT; INT_LE; INT_GT; INT_GE;
                 BOOL_EXPR; IS_NONE; IS_ERROR] →
       visit_branch self op = None).
Proof.
  assert (is_Some (visit_branch self op) ↔ is_Some (branch_cond self op))
    as Hiff.
  { unfold visit_branch, EmitFunc.visit_branch.
    destruct (branch_cond self op); simpl; [by split; eauto|].
    split; by intros []. }
  assert (∀ o, branch_cond self op = o → o = None →
            visit_branch self op = None) as Hnone.
  { intros o Ho ->. apply eq_None_not_Some. rewrite Hiff, Ho. by intros []. }
  split; [done|]. split_and!.
  - intros Hop. apply Hiff. unfold branch_cond, EmitFunc.branch_cond.
    destruct Hop as [-> | ->]; simpl; by eauto.
  - intros Hop. unfold branch_cond, EmitFunc.branch_cond in *.
    rewrite Hop in *. simpl in *. split_and!.
    + intros Hty. eapply Hnone; [done|]. by rewrite Hty.
    + intros Hty. eapply Hnone; [done|]. by rewrite Hty.
    + intros ts rest Hty. eapply Hnone; [done|]. by rewrite Hty.
    + intros t rest value Hty Hvalue. rewrite Hty. simpl.
      by rewrite Hvalue.
  - intros Hop. eapply Hnone; [done|].
    unfold EmitFunc.branch_cond, BRANCH_OP_MAP.
    rewrite !not_elem_of_cons in Hop.
    destruct Hop as (?&?&?&?&?&?&?&?&?&_).
    by rewrite !bool_decide_false by done.
Qed.

End branch_facts_emit.

Lemma visit_branch_conditions_witness :
  visit_branch None None (λ l, "CPyL" +:+ pretty l)
    (add_temp Environment_init (RTuple [])).2 "f" "prog.py"
    (mkRecorder [] [] 0)
    (Branch_init (CRegister 0) INVALID_REGISTER 1%Z 2%Z IS_ERROR 7%Z)
  = None.
Proof.
  apply (proj1 (proj2 (proj1 (proj2 (proj2 (visit_branch_conditions None None
    (λ l, "CPyL" +:+ pretty l) (add_temp Environment_init (RTuple [])).2
    "f" "prog.py" (mkRecorder [] [] 0)
    (Branch_init (CRegister 0) INVALID_REGISTER 1%Z 2%Z IS_ERROR 7%Z)))) eq_refl))).
  simpl. rewrite map_size_empty. apply lookup_insert_eq.
Defined.

(** ** ops.py: the declaration of a tuple struct *)

Section tuple_declaration.
Variable rtuple_hash : list RType → Z.
Variables union_ctype void_ctype : string.

Local Abbreviation ctype := (ctype rtuple_hash union_ctype void_ctype).
Local Abbreviation ctype_spaced :=
  (ctype_spaced rtuple_hash union_ctype void_ctype).
Local Abbreviation field_lines :=
  (field_lines rtuple_hash union_ctype void_ctype).
Local Abbreviation get_c_declaration :=
  (get_c_declaration rtuple_hash union_ctype void_ctype).

Lemma last_char_is_Some (s : string) : is_Some (last_char s) ↔ s ≠ "".
Proof.
  induction s as [|c s IH]; simpl.
  - split; [by intros []|done].
  - destruct s; [by split; eauto|]. split; [done|]. intros _.
    apply IH. done.
Qed.

Lemma ctype_spaced_is_Some (t : RType) :
  is_Some (ctype_spaced t) ↔ ctype t ≠ "".
Proof.
  unfold ctype_spaced, Ops.ctype_spaced. rewrite <-last_char_is_Some.
  destruct (last_char (ctype t)); simpl; [by split; eauto|].
  split; by intros [].
Qed.

Lemma field_lines_spec (types : list RType) : ∀ i,
  match field_lines i types with
  | Some fields =>
      length fields = length types
      ∧ ∀ j t, types !! j = Some t →
          ∃ spaced, ctype_spaced t = Some spaced
            ∧ fields !! j
              = Some ("    " +:+ spaced +:+ "f" +:+ pretty (i + j) +:+ ";")
  | None => Exists (λ t, ctype t = "") types
  end.
Proof.
  induction types as [|t types IH]; intros i; simpl.
  { split; [done|]. intros j t. by rewrite lookup_nil. }
  destruct (Ops.ctype_spaced _ _ _ t) as [spaced|] eqn:Hsp; simpl.
  - specialize (IH (S i)).
    destruct (Ops.field_lines _ _ _ (S i) types) as [fields|]; simpl.
    + destruct IH as [Hlen Hfields]. split; [by rewrite Hlen|].
      intros [|j] t'; simpl.
      * intros [= <-]. exists spaced. by rewrite Nat.add_0_r.
      * intros Hj. destruct (Hfields j t' Hj) as (sp & ? & Hf).
        exists sp. split; [done|]. rewrite Hf.
        by replace (i + S j) with (S i + j) by lia.
    + by right.
  - left. destruct (decide (ctype t = "")) as [|Hne]; [done|].
    apply ctype_spaced_is_Some in Hne as [? Hsome]. congruence.
Qed.

Lemma ctype_nonempty (t : RType) :
  variant t = VPrimitive ∨ variant t = VTuple
  ∨ variant t = VInstance ∨ variant t = VOptional →
  ctype t ≠ "".
Proof.
  destruct t as [n u r c|ts|cl|v|ts|]; simpl; intros [|[|[|]]]; try done.
  by destruct c.
Qed.

(** X20: the struct declared for a tuple type names its fields [f0],
    [f1], ... in the order of the element types: the declaration has one
    line per element between the opening and the closing line, and line
    [i+1] declares field [f<i>] with the storage type of element [i], a
    space being added after the type unless it ends in a star.  The
    declaration fails only for an element type with an empty storage
    type, which no Primitive, Tuple, Instance or Optional has. *)
Theorem get_c_declaration_fields (types : list RType) :
  (get_c_declaration types = None ↔ Exists (λ t, ctype t = "") types)
  ∧ (∀ t, variant t = VPrimitive ∨ variant t = VTuple
          ∨ variant t = VInstance ∨ variant t = VOptional →
          ctype t ≠ "")
  ∧ ∀ lines, get_c_declaration types = Some lines →
      length lines = length types + 3
      ∧ lines !! 0
        = Some ("struct " +:+ struct_name rtuple_hash types +:+ " {")
      ∧ (∀ i t, types !! i = Some t →
           ∃ spaced, ctype_spaced t = Some spaced
             ∧ lines !! (S i)
               = Some ("    " +:+ spaced +:+ "f" +:+ pretty i +:+ ";"))
      ∧ lines !! (length types + 1) = Some "};"
      ∧ lines !! (length types + 2) = Some "".
Proof.
  unfold get_c_declaration, Ops.get_c_declaration.
  pose proof (field_lines_spec types 0) as Hspec.
  destruct (Ops.field_lines _ _ _ 0 types) as [fields|]; simpl.
  - destruct Hspec as [Hlen Hfields]. split_and!.
    + split; [done|]. intros Hex. apply Exists_exists in Hex as (t & Hin & Ht).
      apply list_elem_of_lookup in Hin as [i Hi].
      destruct (Hfields i t Hi) as (sp & Hsp & _).
      assert (is_Some (ctype_spaced t)) as Hsome by eauto.
      by apply ctype_spaced_is_Some in Hsome.
    + apply ctype_nonempty.
    + intros lines [= <-]. split_and!.
      * simpl. rewrite length_app. simpl. lia.
      * done.
      * intros i t Hi. destruct (Hfields i t Hi) as (sp & Hsp & Hf).
        exists sp. split; [done|]. by apply lookup_app_l_Some.
      * rewrite <-Hlen, Nat.add_1_r. simpl. by rewrite list_lookup_middle.
      * rewrite <-Hlen.
        replace (length fields + 2) with (S (length fields + 1)) by lia.
        simpl. rewrite lookup_app_r by lia.
        by replace (length fields + 1 - length fields) with 1 by lia.
  - split_and!.
    + done.
    + apply ctype_nonempty.
    + done.
Qed.

End tuple_declaration.

Lemma get_c_declaration_fields_witness :
  ∃ spaced,
    ctype_spaced (λ _, 42%Z) "PyObject *" "void" str_rprimitive = Some spaced
    ∧ [ "struct tuple_def_42 {"; "    CPyTagged f0;"; "    PyObject *f1;";
        "};"; "" ] !! 2
      = Some ("    " +:+ spaced +:+ "f" +:+ pretty 1 +:+ ";").
Proof.
  apply (proj1 (proj2 (proj2 (proj2 (proj2 (get_c_declaration_fields
    (λ _, 42%Z) "PyObject *" "void" [int_rprimitive; str_rprimitive]))
    [ "struct tuple_def_42 {"; "    CPyTagged f0;"; "    PyObject *f1;";
      "};"; "" ] ltac:(vm_compute; reflexivity)))) 1 str_rprimitive eq_refl).
Defined.
